(** * point-attention-net: training / validation / test orchestration

    A shallow embedding of [main.py]: model selection, the label-smoothed
    loss, the data loaders, the training and validation passes, the epoch
    loop with its checkpoints and best-model tracking, and the evaluator.

    Conventions.
    - A Python exception is a value of [exn]; a computation that may raise
      has type [result A].
    - Tensor entries and Python floats are values of [tval]: a real number
      or one of the IEEE special values [+inf], [-inf], [nan].  Rounding is
      not modelled; what is modelled is that tensor division by zero
      yields a special value and Python float division by zero raises.
    - Accuracies are ratios of counts and live in [Q].
    - Collaborators that are not part of [main.py] (the four architectures,
      the optimizer update, the random permutation drawn by a shuffling
      loader) are fields of the class [Collab]. *)

From Stdlib Require Import String ZArith QArith Reals Lra Lia Bool Arith.
From Stdlib Require Import List Permutation.
Import ListNotations.

Set Implicit Arguments.

(** ** Exceptions *)

Inductive exn : Type :=
| ValueError
| RuntimeError
| IndexError
| ZeroDivisionError
| FileNotFoundError.

Definition result (A : Type) : Type := (exn + A)%type.

Definition rbind {A B : Type} (r : result A) (k : A -> result B) : result B :=
  match r with
  | inl e => inl e
  | inr a => k a
  end.

(** ** Floating values with the IEEE special values *)

Inductive tval : Type :=
| Fin (r : R)
| PInf
| NInf
| NaN.

Definition Rsign (r : R) : comparison :=
  match total_order_T r 0 with
  | inleft (left _) => Lt
  | inleft (right _) => Eq
  | inright _ => Gt
  end.

Definition inf_of (c : comparison) : tval :=
  match c with
  | Lt => NInf
  | Eq => NaN
  | Gt => PInf
  end.

Definition tneg (x : tval) : tval :=
  match x with
  | Fin r => Fin (- r)
  | PInf => NInf
  | NInf => PInf
  | NaN => NaN
  end.

Definition tadd (x y : tval) : tval :=
  match x, y with
  | Fin a, Fin b => Fin (a + b)
  | NaN, _ | _, NaN => NaN
  | PInf, NInf | NInf, PInf => NaN
  | PInf, _ | _, PInf => PInf
  | NInf, _ | _, NInf => NInf
  end.

Definition tsub (x y : tval) : tval := tadd x (tneg y).

Definition tmul (x y : tval) : tval :=
  match x, y with
  | Fin a, Fin b => Fin (a * b)
  | NaN, _ | _, NaN => NaN
  | PInf, Fin b | Fin b, PInf => inf_of (Rsign b)
  | NInf, Fin b | Fin b, NInf => inf_of (CompOpp (Rsign b))
  | PInf, PInf | NInf, NInf => PInf
  | PInf, NInf | NInf, PInf => NInf
  end.

(** [x * n] for a Python integer [n]. *)
Definition tscale (x : tval) (n : Z) : tval :=
  match x with
  | Fin a => Fin (a * IZR n)
  | NaN => NaN
  | PInf => inf_of (Z.compare n 0)
  | NInf => inf_of (CompOpp (Z.compare n 0))
  end.

(** Tensor true division by a Python integer: elementwise, IEEE; a zero
    divisor gives [nan] or an infinity and raises nothing. *)
Definition tdivz (x : tval) (n : Z) : tval :=
  match x with
  | Fin a =>
      if (n =? 0)%Z then inf_of (Rsign a) else Fin (a / IZR n)
  | NaN => NaN
  | PInf => if (n <? 0)%Z then NInf else PInf
  | NInf => if (n <? 0)%Z then PInf else NInf
  end.

(** Python [float / float] where the divisor is a sample count: raises
    [ZeroDivisionError] on a zero divisor. *)
Definition py_div (x : tval) (n : Z) : result tval :=
  if (n =? 0)%Z then inl ZeroDivisionError else inr (tdivz x n).

Definition tsum (l : list tval) : tval := fold_left tadd l (Fin 0).

(** [t.mean()] of a one-dimensional tensor; the mean of an empty tensor is
    [nan]. *)
Definition tmean (l : list tval) : tval :=
  tdivz (tsum l) (Z.of_nat (length l)).

(** ** Tensors *)

(** A two-dimensional float tensor; [size1] is [t.size(1)], which a tensor
    with no rows still has. *)
Record tensor2 : Type := Tensor2 {
  size1 : nat;
  rows : list (list tval)
}.

Definition size0 (t : tensor2) : nat := length (rows t).

Definition well_shaped (t : tensor2) : Prop :=
  Forall (fun r => length r = size1 t) (rows t).

Definition zeros_like (t : tensor2) : tensor2 :=
  Tensor2 (size1 t) (map (map (fun _ => Fin 0)) (rows t)).

Fixpoint map2 {A B C : Type} (f : A -> B -> C) (l : list A) (m : list B)
  : list C :=
  match l, m with
  | a :: l', b :: m' => f a b :: map2 f l' m'
  | _, _ => []
  end.

Fixpoint set_nth {A : Type} (n : nat) (v : A) (l : list A) : list A :=
  match l, n with
  | [], _ => []
  | _ :: l', O => v :: l'
  | a :: l', S n' => a :: set_nth n' v l'
  end.

(** [t.scatter(1, index.view(-1, 1), v)]: row [i] of the result has [v] at
    column [index[i]]; rows beyond the index keep their entries.  An index
    outside [0, size1) and an index longer than the tensor raise. *)
Fixpoint scatter_rows (n : nat) (rs : list (list tval)) (index : list Z)
  (v : tval) : result (list (list tval)) :=
  match index with
  | [] => inr rs
  | g :: index' =>
      match rs with
      | [] => inl RuntimeError
      | r :: rs' =>
          if ((0 <=? g)%Z && (g <? Z.of_nat n)%Z)%bool then
            rbind (scatter_rows n rs' index' v)
                  (fun rs'' => inr (set_nth (Z.to_nat g) v r :: rs''))
          else inl RuntimeError
      end
  end.

Definition scatter1 (t : tensor2) (index : list Z) (v : tval)
  : result tensor2 :=
  rbind (scatter_rows (size1 t) (rows t) index v)
        (fun rs => inr (Tensor2 (size1 t) rs)).

Definition tmap (f : tval -> tval) (t : tensor2) : tensor2 :=
  Tensor2 (size1 t) (map (map f) (rows t)).

Definition tmap2 (f : tval -> tval -> tval) (t u : tensor2) : tensor2 :=
  Tensor2 (size1 t) (map2 (map2 f) (rows t) (rows u)).

(** [t.sum(dim=1)] *)
Definition sum_dim1 (t : tensor2) : list tval := map tsum (rows t).

(** *** log-softmax along a row *)

Definition is_nan_or_pinf (x : tval) : bool :=
  match x with
  | NaN | PInf => true
  | _ => false
  end.

Definition is_ninf (x : tval) : bool :=
  match x with
  | NInf => true
  | _ => false
  end.

Definition texp (x : tval) : R :=
  match x with
  | Fin r => exp r
  | _ => 0
  end.

Definition Rsum (l : list R) : R := fold_right Rplus 0%R l.

(** The log-softmax of a row.  A [nan] or [+inf] entry, and a row of
    [-inf] only, make every entry [nan]; otherwise a [-inf] entry stays
    [-inf] and a finite [x] becomes [x - ln (sum exp)].  Finite values are
    real numbers here: the rounding of float32, and the overflow of finite
    logits of huge magnitude to an infinity, are not part of the model. *)
Definition log_softmax_row (row : list tval) : list tval :=
  if (existsb is_nan_or_pinf row || forallb is_ninf row)%bool then
    map (fun _ => NaN) row
  else
    let s := Rsum (map texp row) in
    map (fun x => match x with
                  | Fin r => Fin (r - ln s)
                  | _ => x
                  end) row.

Definition log_softmax (t : tensor2) : tensor2 :=
  Tensor2 (size1 t) (map log_softmax_row (rows t)).

(** ** Label arrays *)

(** The array of labels of a batch after [label.squeeze()]: [squeeze]
    removes every dimension of size one, so the labels of a batch of one
    sample become a zero-dimensional array. *)
Inductive ndarray : Type :=
| Arr0 (z : Z)
| Arr1 (l : list Z).

Definition squeeze (labels : list Z) : ndarray :=
  match labels with
  | [z] => Arr0 z
  | _ => Arr1 labels
  end.

(** [a.contiguous().view(-1)] *)
Definition view_flat (a : ndarray) : list Z :=
  match a with
  | Arr0 z => [z]
  | Arr1 l => l
  end.

(** [np.concatenate]: needs at least one array, and refuses
    zero-dimensional arrays. *)
Fixpoint concat_arrays (l : list ndarray) : result (list Z) :=
  match l with
  | [] => inr []
  | Arr0 _ :: _ => inl ValueError
  | Arr1 a :: l' => rbind (concat_arrays l') (fun r => inr (a ++ r))
  end.

Definition np_concatenate (l : list ndarray) : result (list Z) :=
  match l with
  | [] => inl ValueError
  | _ => concat_arrays l
  end.

(** ** calculate_loss *)

Definition eps : R := 2 / 10.

(** Mean cross entropy, [F.cross_entropy(pred, gold, reduction='mean')]:
    a row whose label is the default [ignore_index], -100, is left out of
    the mean; any other label outside the classes is refused. *)
Fixpoint nll_rows (lp : list (list tval)) (gold : list Z) (n : nat)
  : result (list tval) :=
  match lp, gold with
  | [], [] => inr []
  | r :: lp', g :: gold' =>
      if (g =? -100)%Z then nll_rows lp' gold' n
      else if ((0 <=? g)%Z && (g <? Z.of_nat n)%Z)%bool then
        rbind (nll_rows lp' gold' n)
              (fun rest => inr (tneg (nth (Z.to_nat g) r NaN) :: rest))
      else inl IndexError
  | _, _ => inl ValueError
  end.

Definition cross_entropy (pred : tensor2) (gold : list Z) : result tval :=
  rbind (nll_rows (rows (log_softmax pred)) gold (size1 pred))
        (fun l => inr (tmean l)).

Definition calculate_loss (pred : tensor2) (gold : ndarray)
  (smoothing : bool) : result tval :=
  let gold := view_flat gold in
  if smoothing then
    let n_class := size1 pred in
    rbind (scatter1 (zeros_like pred) gold (Fin 1)) (fun one_hot =>
    let one_hot :=
      tmap2 tadd
        (tmap (fun x => tmul x (Fin (1 - eps))) one_hot)
        (tmap (fun x => tdivz (tmul (tsub (Fin 1) x) (Fin eps))
                              (Z.of_nat n_class - 1)) one_hot) in
    let log_prb := log_softmax pred in
    inr (tneg (tmean (sum_dim1 (tmap2 tmul one_hot log_prb)))))
  else
    cross_entropy pred gold.

(** The entry the code computes from a one-hot entry [x]. *)
Definition smooth (n_class : nat) (x : tval) : tval :=
  tadd (tmul x (Fin (1 - eps)))
       (tdivz (tmul (tsub (Fin 1) x) (Fin eps)) (Z.of_nat n_class - 1)).

(** ** The smoothed loss as the specification words it *)

(** The soft target of a sample: mass [1 - eps] on the gold class and
    [eps / (classes - 1)] on every other class. *)
Definition soft_target (classes : nat) (g : Z) : list tval :=
  map (fun j => if (Z.of_nat j =? g)%Z
                then Fin (1 - eps)
                else Fin (eps / (INR classes - 1)))
      (seq 0 classes).

Definition dot (u v : list tval) : tval := tsum (map2 tmul u v).

(** Mean over the batch of the negative dot product of the soft target
    with the log-softmax of the logits. *)
Definition smoothed_loss_spec (pred : tensor2) (gold : list Z) : tval :=
  tmean (map2 (fun g row =>
                 tneg (dot (soft_target (size1 pred) g) (log_softmax_row row)))
              gold (rows pred)).

(** ** Metrics (sklearn.metrics) *)

Definition Zpair_eqb (p : Z * Z) : bool := (fst p =? snd p)%Z.

Definition ratio (a b : nat) : Q := inject_Z (Z.of_nat a) / inject_Z (Z.of_nat b).

(** The fraction of positions where the two sequences agree. *)
Definition accuracy (y_true y_pred : list Z) : Q :=
  ratio (length (filter Zpair_eqb (combine y_true y_pred))) (length y_true).

(** [accuracy_score(y_true, y_pred)].  Sequences of different lengths are
    refused.  The passes never hand over an empty pair ([np.concatenate]
    raises before). *)
Definition accuracy_score (y_true y_pred : list Z) : result Q :=
  if negb (length y_true =? length y_pred)%nat then inl ValueError
  else match y_true with
       | [] => inl ValueError
       | _ => inr (accuracy y_true y_pred)
       end.

(** Recall of class [c]: true positives over true instances of [c]. *)
Definition recall (c : Z) (y_true y_pred : list Z) : Q :=
  let of_c := filter (fun p => (fst p =? c)%Z) (combine y_true y_pred) in
  ratio (length (filter Zpair_eqb of_c)) (length of_c).

Definition Qsum (l : list Q) : Q := fold_right Qplus 0 l.

(** The mean of the recalls of the classes that occur in [y_true]. *)
Definition balanced_accuracy (y_true y_pred : list Z) : Q :=
  let classes := nodup Z.eq_dec y_true in
  Qsum (map (fun c => recall c y_true y_pred) classes)
  / inject_Z (Z.of_nat (length classes)).

(** [balanced_accuracy_score(y_true, y_pred)] *)
Definition balanced_accuracy_score (y_true y_pred : list Z) : result Q :=
  if negb (length y_true =? length y_pred)%nat then inl ValueError
  else match y_true with
       | [] => inl ValueError
       | _ => inr (balanced_accuracy y_true y_pred)
       end.

(** [a > b] on metric values. *)
Definition Qgtb (a b : Q) : bool := negb (Qle_bool a b).

(** ** Configuration and collaborators *)

Inductive partition : Type := TrainPart | ValidationPart | TestPart.

(** A point cloud: points x 3. *)
Definition point : Type := (tval * tval * tval)%type.
Definition cloud : Type := list point.
Definition sample : Type := (cloud * Z)%type.

(** [data.permute(0, 2, 1)]: every cloud of the batch becomes 3 x points. *)
Definition permute_0_2_1 (data : list cloud) : list (list (list tval)) :=
  map (fun c => [map (fun p => fst (fst p)) c;
                 map (fun p => snd (fst p)) c;
                 map (fun p => snd p) c]) data.

(** The fields of [Params] that [main.py] reads.  The flag read by the
    training loop is spelled [dry_ryn] there. *)
Record Params : Type := {
  model : string;
  optimizer : string;
  lr : R;
  momentum : R;
  epochs : nat;
  batch_size : nat;
  test_batch_size : nat;
  num_points : nat;
  random_state : Z;
  dry_ryn : bool;
  last_checkpoint : string;
  checkpoint_path : string;
  dataset_loader : partition -> nat -> Z -> list sample
}.

Inductive Arch : Type := PointNet | PointAttentionNet | AttentionDGCNN | DGCNN.

(** What [main.py] uses and does not define. *)
Class Collab : Type := {
  (** a network with its parameters, as wrapped by [nn.DataParallel] *)
  Model : Type;
  StateDict : Type;
  Optim : Type;
  (** the constructor of each architecture, moved to the device *)
  build : Arch -> Params -> Model;
  state_dict : Model -> StateDict;
  load_state_dict : Model -> StateDict -> Model;
  (** [model(data)], in training mode ([true]) or evaluation mode *)
  forward : bool -> Model -> list (list (list tval)) -> tensor2;
  (** the index half of [row.max()] *)
  max_index : list tval -> Z;
  (** [torch.optim.SGD] ([true]) or [torch.optim.Adam] *)
  make_optim : bool -> R -> R -> Model -> Optim;
  (** [opt.zero_grad(); loss.backward(); opt.step()] at the given learning
      rate, with what the forward pass in training mode left in the
      network *)
  optim_step : Optim -> R -> Model -> list (list (list tval)) -> ndarray ->
               Model * Optim;
  (** the permutation a shuffling loader draws for its k-th iteration *)
  shuffle : nat -> list sample -> list sample;
  shuffle_perm : forall k l, Permutation (shuffle k l) l;
  (** whether two paths, as written, name the same file *)
  same_file : string -> string -> bool;
  same_file_refl : forall p, same_file p p = true;
  same_file_sym : forall p q, same_file p q = same_file q p;
  same_file_trans : forall p q r,
    same_file p q = true -> same_file q r = true -> same_file p r = true
}.

(** ** select_model *)

Definition select_arch (name : string) : Arch :=
  if String.eqb name "PointNet" then PointNet
  else if String.eqb name "PointAttentionNet" then PointAttentionNet
  else if String.eqb name "AttentionDGCNN" then AttentionDGCNN
  else DGCNN.

Definition select_model {C : Collab} (params : Params) : Model :=
  build (select_arch (model params)) params.

(** ** Data loaders *)

Record DataLoader : Type := {
  ld_dataset : list sample;
  ld_batch_size : nat;
  ld_shuffle : bool;
  ld_drop_last : bool
}.

(** [DataLoader(dataset, batch_size=..., shuffle=..., drop_last=...)].
    With [shuffle=True] the constructor builds a [RandomSampler], which
    refuses a dataset with no sample; the batch sampler it builds next
    refuses a batch size that is not positive.  Both raise [ValueError]. *)
Definition mkDataLoader (ds : list sample) (bs : nat) (sh dl : bool)
  : result DataLoader :=
  if (sh && (length ds =? 0)%nat)%bool then inl ValueError
  else if (bs =? 0)%nat then inl ValueError
  else inr {| ld_dataset := ds; ld_batch_size := bs;
              ld_shuffle := sh; ld_drop_last := dl |}.

(** The batch sampler: samples are collected into the current batch
    ([cur], latest first), which is handed out when it reaches the batch
    size; what is left at the end is handed out unless [drop_last]. *)
Fixpoint batch_sampler {A : Type} (bs : nat) (drop_last : bool)
  (cur : list A) (l : list A) : list (list A) :=
  match l with
  | [] =>
      match cur with
      | [] => []
      | _ => if drop_last then [] else [rev cur]
      end
  | x :: l' =>
      if (length (x :: cur) =? bs)%nat
      then rev (x :: cur) :: batch_sampler bs drop_last [] l'
      else batch_sampler bs drop_last (x :: cur) l'
  end.

(** The batches of the k-th iteration over a loader. *)
Definition loader_batches {C : Collab} (ld : DataLoader) (k : nat)
  : list (list sample) :=
  batch_sampler (ld_batch_size ld) (ld_drop_last ld) []
    (if ld_shuffle ld then shuffle k (ld_dataset ld) else ld_dataset ld).

(** ** The learning-rate schedule *)

(** [CosineAnnealingLR(opt, T_max, eta_min)]; [base_lr] is the rate the
    optimizer has when the schedule is built. *)
Record CosineAnnealingLR : Type := {
  base_lr : R;
  eta_min : R;
  T_max : nat;
  last_epoch : nat
}.

(** The rate of the schedule at its current step. *)
Definition get_lr (s : CosineAnnealingLR) : R :=
  eta_min s
  + (base_lr s - eta_min s)
    * (1 + cos (PI * INR (last_epoch s) / INR (T_max s))) / 2.

Definition scheduler_step (s : CosineAnnealingLR) : CosineAnnealingLR :=
  {| base_lr := base_lr s; eta_min := eta_min s; T_max := T_max s;
     last_epoch := S (last_epoch s) |}.

(** ** The world: files, output, and the loaders' random draws *)

Inductive message : Type :=
| MsgModel (a : Arch)
| MsgGPUs
| MsgUseSGD
| MsgUseAdam
| MsgTest (test_acc avg_per_class_acc : Q).

(** One row of the per-epoch report (the elapsed time is left out). *)
Record csv_row : Type := {
  row_epoch : nat;
  row_train_loss : tval;
  row_train_acc : Q;
  row_train_avg_acc : Q;
  row_val_loss : tval;
  row_val_acc : Q;
  row_val_avg_acc : Q
}.

(** {loss, accuracy, balanced accuracy} of the best validation epoch. *)
Record BestState : Type := {
  global_best_loss : tval;
  global_best_acc : Q;
  global_best_avg_acc : Q
}.

(** Which [torch.save] of the epoch loop wrote. *)
Inductive slot : Type := Latest | Best.

Section World.
Context {C : Collab}.

Inductive event : Type :=
| EvLog (m : message)
| EvPrint (m : message)
(** [model(data)] on one batch, in training mode ([true]) or not *)
| EvForward (training : bool)
(** [opt.step()] at a learning rate *)
| EvOptStep (rate : R)
(** the validation block of an epoch is entered *)
| EvValidation
| EvCsv (row : csv_row)
| EvSave (s : slot) (path : string) (sd : StateDict)
| EvSummary (b : BestState).

Record World : Type := {
  fs : list (string * StateDict);
  trace : list event;
  draws : nat
}.

Definition M (A : Type) : Type := World -> result A * World.

Definition ret {A : Type} (a : A) : M A := fun w => (inr a, w).

Definition bind {A B : Type} (m : M A) (k : A -> M B) : M B :=
  fun w =>
    match m w with
    | (inl e, w') => (inl e, w')
    | (inr a, w') => k a w'
    end.

Definition lift {A : Type} (r : result A) : M A := fun w => (r, w).

Definition emit (ev : event) : M unit :=
  fun w => (inr tt, {| fs := fs w; trace := trace w ++ [ev];
                       draws := draws w |}).

(** The files are kept as the list of the writes, latest first: reading a
    path finds the latest write to a path that names the same file. *)
Fixpoint lookup (path : string) (files : list (string * StateDict))
  : option StateDict :=
  match files with
  | [] => None
  | (p, sd) :: files' => if same_file p path then Some sd
                         else lookup path files'
  end.

(** [torch.save(sd, path)] *)
Definition torch_save (s : slot) (path : string) (sd : StateDict) : M unit :=
  fun w => (inr tt, {| fs := (path, sd) :: fs w;
                       trace := trace w ++ [EvSave s path sd];
                       draws := draws w |}).

(** [torch.load(path)] *)
Definition torch_load (path : string) : M StateDict :=
  fun w => match lookup path (fs w) with
           | Some sd => (inr sd, w)
           | None => (inl FileNotFoundError, w)
           end.

(** Starting an iteration over a loader draws its permutation. *)
Definition iterate (ld : DataLoader) : M (list (list sample)) :=
  fun w => (inr (loader_batches ld (draws w)),
            {| fs := fs w; trace := trace w; draws := S (draws w) |}).

End World.

Notation "x <- c ;; k" := (bind c (fun x => k))
  (at level 61, c at next level, right associativity).
Notation "c ;;; k" := (bind c (fun _ => k))
  (at level 61, right associativity).

Definition best_model_path : string := "./tmp/output/best_model.m7".

Section Orchestrator.
Context {C : Collab}.

(** ** The training pass *)

(** The variables the loops update. *)
Record Learner : Type := {
  net : Model;
  opt : Optim;
  opt_lr : R;
  scheduler : CosineAnnealingLR
}.

Record Accum : Type := {
  acc_loss : tval;
  acc_count : nat;
  acc_true : list ndarray;
  acc_pred : list ndarray
}.

Definition Accum0 : Accum :=
  {| acc_loss := Fin 0; acc_count := 0; acc_true := []; acc_pred := [] |}.

Definition criterion (pred : tensor2) (gold : ndarray) : result tval :=
  calculate_loss pred gold true.

(** [logits.max(dim=1)[1]] *)
Definition max_dim1 (logits : tensor2) : ndarray :=
  Arr1 (map max_index (rows logits)).

Definition accumulate (a : Accum) (loss : tval) (n : nat)
  (label preds : ndarray) : Accum :=
  {| acc_loss := tadd (acc_loss a) (tscale loss (Z.of_nat n));
     acc_count := acc_count a + n;
     acc_true := acc_true a ++ [label];
     acc_pred := acc_pred a ++ [preds] |}.

(** The loop of [train_batch] over the batches of the training loader. *)
Fixpoint train_loop (dry : bool) (batches : list (list sample))
  (l : Learner) (a : Accum) : M (Learner * Accum) :=
  match batches with
  | [] => ret (l, a)
  | b :: rest =>
      let label := squeeze (map snd b) in
      let data := permute_0_2_1 (map fst b) in
      let batch_size := length data in
      let logits := forward true (net l) data in
      emit (EvForward true) ;;;
      loss <- lift (criterion logits label) ;;
      emit (EvOptStep (opt_lr l)) ;;;
      let '(net', opt') := optim_step (opt l) (opt_lr l) (net l) data label in
      let l' := {| net := net'; opt := opt'; opt_lr := opt_lr l;
                   scheduler := scheduler l |} in
      let a' := accumulate a loss batch_size label (max_dim1 logits) in
      if dry then ret (l', a') else train_loop dry rest l' a'
  end.

(** What a pass hands back: [(loss, true, pred)]. *)
Definition finish (a : Accum) : result (tval * list Z * list Z) :=
  rbind (np_concatenate (acc_true a)) (fun y_true =>
  rbind (np_concatenate (acc_pred a)) (fun y_pred =>
  rbind (py_div (tmul (acc_loss a) (Fin 1)) (Z.of_nat (acc_count a)))
        (fun loss => inr (loss, y_true, y_pred)))).

Definition train_batch (args : Params) (train_loader : DataLoader)
  (l : Learner) : M (Learner * (tval * list Z * list Z)) :=
  let sch := scheduler_step (scheduler l) in
  let l := {| net := net l; opt := opt l; opt_lr := get_lr sch;
              scheduler := sch |} in
  batches <- iterate train_loader ;;
  la <- train_loop (dry_ryn args) batches l Accum0 ;;
  r <- lift (finish (snd la)) ;;
  ret (fst la, r).

(** ** The validation loop *)

Fixpoint validation_loop (batches : list (list sample)) (m : Model)
  (a : Accum) : M Accum :=
  match batches with
  | [] => ret a
  | b :: rest =>
      let label := squeeze (map snd b) in
      let data := permute_0_2_1 (map fst b) in
      let batch_size := length data in
      let logits := forward false m data in
      emit (EvForward false) ;;;
      loss <- lift (criterion logits label) ;;
      validation_loop rest m
        (accumulate a loss batch_size label (max_dim1 logits))
  end.

(** ** The epoch loop *)

Definition BestState0 : BestState :=
  {| global_best_loss := Fin 0; global_best_acc := 0;
     global_best_avg_acc := 0 |}.

(** The validation block of one epoch, after the training pass returned
    [(train_loss, train_true, train_pred)]. *)
Definition validate (args : Params) (validation_loader : DataLoader)
  (epoch : nat) (m : Model) (tr : tval * list Z * list Z) (best : BestState)
  : M BestState :=
  let '(train_loss, train_true, train_pred) := tr in
  emit EvValidation ;;;
  batches <- iterate validation_loader ;;
  a <- validation_loop batches m Accum0 ;;
  val_true <- lift (np_concatenate (acc_true a)) ;;
  val_pred <- lift (np_concatenate (acc_pred a)) ;;
  val_acc <- lift (accuracy_score val_true val_pred) ;;
  avg_per_class_acc <- lift (balanced_accuracy_score val_true val_pred) ;;
  train_acc <- lift (accuracy_score train_true train_pred) ;;
  train_avg_acc <- lift (balanced_accuracy_score train_true train_pred) ;;
  val_loss <- lift (py_div (tmul (acc_loss a) (Fin 1))
                           (Z.of_nat (acc_count a))) ;;
  emit (EvCsv {| row_epoch := epoch; row_train_loss := train_loss;
                 row_train_acc := train_acc;
                 row_train_avg_acc := train_avg_acc;
                 row_val_loss := val_loss; row_val_acc := val_acc;
                 row_val_avg_acc := avg_per_class_acc |}) ;;;
  torch_save Latest (checkpoint_path args) (state_dict m) ;;;
  if Qgtb avg_per_class_acc (global_best_avg_acc best) then
    torch_save Best best_model_path (state_dict m) ;;;
    ret {| global_best_loss := val_loss; global_best_acc := val_acc;
           global_best_avg_acc := avg_per_class_acc |}
  else ret best.

(** [for epoch in range(args.epochs)], over the epochs still to run. *)
Fixpoint epoch_loop (args : Params) (train_loader validation_loader : DataLoader)
  (todo : list nat) (l : Learner) (best : BestState)
  : M (Learner * BestState) :=
  match todo with
  | [] => ret (l, best)
  | epoch :: todo' =>
      lt <- train_batch args train_loader l ;;
      if dry_ryn args then ret (fst lt, best)
      else
        best' <- validate args validation_loader epoch (net (fst lt))
                          (snd lt) best ;;
        epoch_loop args train_loader validation_loader todo' (fst lt) best'
  end.

(** The three loaders. *)
Definition train_loader (args : Params) : result DataLoader :=
  mkDataLoader
    (dataset_loader args TrainPart (num_points args) (random_state args))
    (batch_size args) true true.

Definition validation_loader (args : Params) : result DataLoader :=
  mkDataLoader
    (dataset_loader args ValidationPart (num_points args) (random_state args))
    (test_batch_size args) true false.

Definition test_loader (args : Params) : result DataLoader :=
  mkDataLoader
    (dataset_loader args TestPart (num_points args) (random_state args))
    (test_batch_size args) true false.

(** [CosineAnnealingLR(opt, args.epochs, eta_min=args.lr)] on an optimizer
    built with [lr=args.lr]. *)
Definition make_scheduler (args : Params) : CosineAnnealingLR :=
  {| base_lr := lr args; eta_min := lr args;
     T_max := epochs args; last_epoch := 0 |}.

(** The state the epoch loop starts from. *)
Definition setup (args : Params) : M (DataLoader * DataLoader * Learner) :=
  train_loader <- lift (train_loader args) ;;
  validation_loader <- lift (validation_loader args) ;;
  let m := select_model args in
  emit (EvLog (MsgModel (select_arch (model args)))) ;;;
  emit (EvPrint MsgGPUs) ;;;
  o <- (if String.eqb (optimizer args) "SGD" then
          emit (EvPrint MsgUseSGD) ;;;
          ret (make_optim true (lr args) (momentum args) m)
        else
          emit (EvPrint MsgUseAdam) ;;;
          ret (make_optim false (lr args) (momentum args) m)) ;;
  let sch := make_scheduler args in
  m <- (if negb (String.eqb (last_checkpoint args) "") then
          sd <- torch_load (last_checkpoint args) ;;
          ret (load_state_dict m sd)
        else ret m) ;;
  ret (train_loader, validation_loader,
       {| net := m; opt := o; opt_lr := lr args; scheduler := sch |}).

Definition train (args : Params) : M unit :=
  s <- setup args ;;
  let '(train_loader, validation_loader, l) := s in
  lb <- epoch_loop args train_loader validation_loader
                   (seq 0 (epochs args)) l BestState0 ;;
  emit (EvSummary (snd lb)).

(** ** The evaluator *)

Fixpoint test_loop (batches : list (list sample)) (m : Model)
  (test_true test_pred : list ndarray) : M (list ndarray * list ndarray) :=
  match batches with
  | [] => ret (test_true, test_pred)
  | b :: rest =>
      let label := squeeze (map snd b) in
      let data := permute_0_2_1 (map fst b) in
      let logits := forward false m data in
      emit (EvForward false) ;;;
      test_loop rest m (test_true ++ [label])
                (test_pred ++ [max_dim1 logits])
  end.

Definition test (args : Params) (state : option string) : M (Q * Q) :=
  test_loader <- lift (test_loader args) ;;
  let m := select_model args in
  sd <- match state with
        | Some path => torch_load path
        | None => torch_load best_model_path
        end ;;
  let m := load_state_dict m sd in
  batches <- iterate test_loader ;;
  tp <- test_loop batches m [] [] ;;
  test_true <- lift (np_concatenate (fst tp)) ;;
  test_pred <- lift (np_concatenate (snd tp)) ;;
  test_acc <- lift (accuracy_score test_true test_pred) ;;
  avg_per_class_acc <- lift (balanced_accuracy_score test_true test_pred) ;;
  (match state with
   | None => emit (EvLog (MsgTest test_acc avg_per_class_acc))
   | Some _ => ret tt
   end) ;;;
  ret (test_acc, avg_per_class_acc).

End Orchestrator.

(** ** Reading a trace *)

Section Traces.
Context {C : Collab}.

Definition is_train_forward (ev : event) : bool :=
  match ev with
  | EvForward true => true
  | _ => false
  end.

Definition is_validation (ev : event) : bool :=
  match ev with
  | EvValidation => true
  | EvForward false => true
  | _ => false
  end.

Definition is_save (s : slot) (ev : event) : bool :=
  match ev, s with
  | EvSave Latest _ _, Latest => true
  | EvSave Best _ _, Best => true
  | _, _ => false
  end.

Definition is_any_save (ev : event) : bool :=
  match ev with
  | EvSave _ _ _ => true
  | _ => false
  end.

Definition count (p : event -> bool) (evs : list event) : nat :=
  length (filter p evs).

(** The learning rates of the optimizer steps of a trace. *)
Fixpoint step_rates (evs : list event) : list R :=
  match evs with
  | [] => []
  | EvOptStep r :: evs' => r :: step_rates evs'
  | _ :: evs' => step_rates evs'
  end.

(** The slots of the saves of a trace, in order. *)
Fixpoint saved_slots (evs : list event) : list slot :=
  match evs with
  | [] => []
  | EvSave s _ _ :: evs' => s :: saved_slots evs'
  | _ :: evs' => saved_slots evs'
  end.

Definition World0 : World := {| fs := []; trace := []; draws := 0 |}.

End Traces.

(** ** A small instance, to run the definitions on *)

Module Toy.

(** A cloud of [n] points; the toy network keys its answer on [n]. *)
Definition cloud_of (n : nat) : cloud := repeat (Fin 0, Fin 0, Fin 0) n.

(** Logits over two classes that favour class [p]. *)
Definition logits_for (p : Z) : list tval :=
  if (p =? 0)%Z then [Fin 0; NInf] else [NInf; Fin 0].

Fixpoint first_not_ninf (row : list tval) (i : Z) : Z :=
  match row with
  | [] => 0
  | NInf :: row' => first_not_ninf row' (i + 1)
  | _ :: _ => i
  end.

(** After [m] optimizer steps the network answers class 0 on clouds of
    fewer than [threshold m] points, and class 1 on the others. *)
Definition threshold (m : nat) : nat := if (m <? 3)%nat then 5 else 6.

Definition toy_forward (m : nat) (data : list (list (list tval))) : tensor2 :=
  Tensor2 2
    (map (fun c => logits_for
                     (if (length (hd [] c) <? threshold m)%nat then 0 else 1))
         data).

#[local] Instance collab : Collab := {|
  Model := nat;
  StateDict := nat;
  Optim := unit;
  build := fun _ _ => 0%nat;
  state_dict := fun m => m;
  load_state_dict := fun _ sd => sd;
  forward := fun _ m data => toy_forward m data;
  max_index := fun row => first_not_ninf row 0;
  make_optim := fun _ _ _ _ => tt;
  optim_step := fun o _ m _ _ => (S m, o);
  shuffle := fun _ l => l;
  shuffle_perm := fun _ l => Permutation_refl l;
  same_file := String.eqb;
  same_file_refl := String.eqb_refl;
  same_file_sym := String.eqb_sym;
  same_file_trans := fun p q r Hpq Hqr =>
    proj2 (String.eqb_eq p r)
          (eq_trans (proj1 (String.eqb_eq p q) Hpq)
                    (proj1 (String.eqb_eq q r) Hqr))
|}.

Definition samples (sizes : list nat) : list sample :=
  map (fun n => (cloud_of n, 0%Z)) sizes.

Definition params (name : string) (n_epochs bs tbs : nat) (dry : bool)
  (tr va te : list nat) : Params :=
  {| model := name; optimizer := "SGD"; lr := 1 / 10000;
     momentum := 9 / 10; epochs := n_epochs; batch_size := bs;
     test_batch_size := tbs; num_points := 1024; random_state := 1;
     dry_ryn := dry; last_checkpoint := "";
     checkpoint_path := "./tmp/output/model.t7";
     dataset_loader := fun p _ _ =>
       match p with
       | TrainPart => samples tr
       | ValidationPart => samples va
       | TestPart => samples te
       end |}.

(** A world whose best slot holds the state of a network after three
    optimizer steps. *)
Definition world : World :=
  {| fs := [(best_model_path, 3%nat)]; trace := []; draws := 0 |}.

Definition test_set : DataLoader :=
  {| ld_dataset := samples [4; 5; 6; 7]%nat; ld_batch_size := 2;
     ld_shuffle := true; ld_drop_last := false |}.

End Toy.

(** ** Specifications of computations in [M] *)

Section Specs.
Context {C : Collab}.

(** From every world, [m] appends events that all satisfy [Q], at most
    [n] of them satisfy [f], and a value it returns satisfies [post]. *)
Definition bounded {A : Type} (Q : event -> Prop) (f : event -> bool)
  (n : nat) (m : M A) (post : A -> Prop) : Prop :=
  forall w, exists evs,
    trace (snd (m w)) = trace w ++ evs
    /\ Forall Q evs
    /\ (count f evs <= n)%nat
    /\ match fst (m w) with
       | inr a => post a
       | inl _ => True
       end.



End Specs.

(** An optimizer step of the trace runs at the configured rate. *)
Definition at_configured_rate {C : Collab} (args : Params) (ev : event)
  : Prop :=
  match ev with
  | EvOptStep r => r = lr args
  | _ => True
  end.

(** The schedule of a learner is flat at the configured rate. *)
Definition flat_schedule {C : Collab} (args : Params) (l : Learner) : Prop :=
  base_lr (scheduler l) = lr args /\ eta_min (scheduler l) = lr args.

(** ** Statements about the loaders *)

Section LoaderStatements.
Context {C : Collab}.

Definition dataset (args : Params) (p : partition) : list sample :=
  dataset_loader args p (num_points args) (random_state args).

(** The label arrays a loop collects from its batches. *)
Definition batch_labels (batches : list (list sample)) : list ndarray :=
  map (fun b => squeeze (map snd b)) batches.

(** What C5 says of a configuration, at the k-th iteration over each
    loader: the training loader hands out full batches only, so its loop
    counts fewer samples than the partition has; the validation and test
    loaders hand out every sample, and their loops count or collect all
    of them. *)
Definition partial_batch_policy (args : Params) (k : nat) : Prop :=
  exists tl vl tel,
    train_loader args = inr tl
    /\ validation_loader args = inr vl
    /\ test_loader args = inr tel
    /\ Forall (fun b => length b = batch_size args) (loader_batches tl k)
    /\ length (concat (loader_batches tl k))
       = (batch_size args
          * (length (dataset args TrainPart) / batch_size args))%nat
    /\ (length (concat (loader_batches tl k))
        < length (dataset args TrainPart))%nat
    /\ (forall l a w la w',
          train_loop false (loader_batches tl k) l a w = (inr la, w') ->
          acc_count (snd la)
          = (acc_count a
             + batch_size args
               * (length (dataset args TrainPart) / batch_size args))%nat)
    /\ Permutation (concat (loader_batches vl k))
                   (dataset args ValidationPart)
    /\ (forall m a w a' w',
          validation_loop (loader_batches vl k) m a w = (inr a', w') ->
          acc_count a'
          = (acc_count a + length (dataset args ValidationPart))%nat)
    /\ Permutation (concat (loader_batches tel k)) (dataset args TestPart)
    /\ (forall m w,
          exists tp w',
            test_loop (loader_batches tel k) m [] [] w = (inr tp, w')
            /\ Permutation (concat (map view_flat (fst tp)))
                           (map snd (dataset args TestPart))).

End LoaderStatements.

(** The predictions a loop in evaluation mode collects from its batches. *)
Definition batch_preds {C : Collab} (m : Model)
  (batches : list (list sample)) : list ndarray :=
  map (fun b => max_dim1 (forward false m (permute_0_2_1 (map fst b))))
      batches.

(** ** Statements about the evaluator *)

Section EvaluatorStatements.
Context {C : Collab}.

(** The predictions of a loop in evaluation mode, batch after batch. *)
Definition flat_preds (m : Model) (batches : list (list sample)) : list Z :=
  concat (map (fun b => map max_index
                          (rows (forward false m
                                   (permute_0_2_1 (map fst b)))))
              batches).

Definition weights_path (state : option string) : string :=
  match state with
  | Some path => path
  | None => best_model_path
  end.

(** What C9 says of a call of [test] from a world: it returns the pair
    (accuracy, balanced accuracy) of the predictions of the loaded network
    on every sample of the test partition, and it logs the summary line
    exactly when no state was passed. *)
Definition evaluator_contract (args : Params) (state : option string)
  (w : World) : Prop :=
  exists tel sd,
    test_loader args = inr tel
    /\ lookup (weights_path state) (fs w) = Some sd
    /\ let m := load_state_dict (select_model args) sd in
       let batches := loader_batches tel (draws w) in
       let y_true := map snd (concat batches) in
       let y_pred := flat_preds m batches in
       let test_acc := accuracy y_true y_pred in
       let avg_per_class_acc := balanced_accuracy y_true y_pred in
       Permutation (concat batches) (dataset args TestPart)
       /\ fst (test args state w) = inr (test_acc, avg_per_class_acc)
       /\ trace (snd (test args state w))
          = trace w ++ repeat (EvForward false) (length batches)
            ++ match state with
               | None => [EvLog (MsgTest test_acc avg_per_class_acc)]
               | Some _ => []
               end.

(** The network answers with one row of logits per cloud. *)
Definition one_row_per_cloud : Prop :=
  forall (training : bool) (m : Model) (data : list (list (list tval))),
    length (rows (forward training m data)) = length data.

End EvaluatorStatements.

(** ** Statements about the dry run *)

Section DryStatements.
Context {C : Collab}.

(** What a dry run may put on the trace: no validation, no save, no
    report row, and only the all-zero best state in a summary. *)
Definition dry_event (ev : event) : Prop :=
  match ev with
  | EvValidation | EvForward false | EvCsv _ | EvSave _ _ _ => False
  | EvSummary b => b = BestState0
  | _ => True
  end.

(** [setup] goes through: the training and the validation partition have
    a sample each (both loaders shuffle, and the constructor of a
    shuffling loader refuses an empty dataset), both batch sizes are
    positive, and a checkpoint to resume from, when one is configured, is
    on file. *)
Definition setup_ok (args : Params) (w : World) : Prop :=
  dataset args TrainPart <> []
  /\ dataset args ValidationPart <> []
  /\ (0 < batch_size args)%nat
  /\ (0 < test_batch_size args)%nat
  /\ (last_checkpoint args = ""%string
      \/ exists sd, lookup (last_checkpoint args) (fs w) = Some sd).


End DryStatements.

(** ** Statements about checkpoints and the best state *)

(** The computation returned a value (it raised nothing). *)
Definition returns {A : Type} (r : result A) : Prop :=
  match r with
  | inr _ => True
  | inl _ => False
  end.

Section CheckpointStatements.
Context {C : Collab}.

(** The validation metrics of the network [m] on the batches the
    validation loader hands out at its [k]-th iteration. *)
Definition validation_acc (vl : DataLoader) (m : Model) (k : nat) : Q :=
  accuracy (map snd (concat (loader_batches vl k)))
           (flat_preds m (loader_batches vl k)).

Definition validation_avg_acc (vl : DataLoader) (m : Model) (k : nat) : Q :=
  balanced_accuracy (map snd (concat (loader_batches vl k)))
                    (flat_preds m (loader_batches vl k)).

(** An event that is no row of the report, no save and no summary. *)
Definition quiet_event (ev : event) : Prop :=
  match ev with
  | EvCsv _ | EvSave _ _ _ | EvSummary _ => False
  | _ => True
  end.

(** The rows of the per-epoch report on a trace, in order. *)
Fixpoint csv_rows (evs : list event) : list csv_row :=
  match evs with
  | [] => []
  | EvCsv row :: evs' => row :: csv_rows evs'
  | _ :: evs' => csv_rows evs'
  end.

(** The best state made of the validation metrics of a row. *)
Definition best_of_row (row : csv_row) : BestState :=
  {| global_best_loss := row_val_loss row;
     global_best_acc := row_val_acc row;
     global_best_avg_acc := row_val_avg_acc row |}.

(** What C1 says of the events of consecutive epochs that start with the
    best state [b] and leave [b']: an epoch writes its row and the
    checkpoint; when the validation balanced accuracy of the row is
    strictly above the best state it meets, the epoch also writes the same
    state to the best slot and the next epoch meets the triple of this
    row; otherwise (a tie included) the best slot is not written and the
    next epoch meets the best state unchanged.  Nothing else writes a row
    or saves a state. *)
Inductive epoch_records (args : Params)
  : BestState -> list event -> BestState -> Prop :=
| records_done (b : BestState) : epoch_records args b [] b
| records_quiet (b b' : BestState) (ev : event) (evs : list event) :
    quiet_event ev ->
    epoch_records args b evs b' ->
    epoch_records args b (ev :: evs) b'
| records_improve (b b' : BestState) (row : csv_row) (sd : StateDict)
    (evs : list event) :
    (global_best_avg_acc b < row_val_avg_acc row)%Q ->
    epoch_records args (best_of_row row) evs b' ->
    epoch_records args b
      (EvCsv row :: EvSave Latest (checkpoint_path args) sd
                 :: EvSave Best best_model_path sd :: evs) b'
| records_keep (b b' : BestState) (row : csv_row) (sd : StateDict)
    (evs : list event) :
    (row_val_avg_acc row <= global_best_avg_acc b)%Q ->
    epoch_records args b evs b' ->
    epoch_records args b
      (EvCsv row :: EvSave Latest (checkpoint_path args) sd :: evs) b'.

(** The best state after the rows of a trace, replayed from [b] with the
    comparison of line 164. *)
Fixpoint best_after (b : BestState) (evs : list event) : BestState :=
  match evs with
  | [] => b
  | EvCsv row :: evs' =>
      best_after (if Qgtb (row_val_avg_acc row) (global_best_avg_acc b)
                  then best_of_row row else b) evs'
  | _ :: evs' => best_after b evs'
  end.

(** The slots the saves of a trace must go to, replayed from [b]: the
    checkpoint after every row, the best slot after the rows that are
    strictly above the best state so far. *)
Fixpoint expected_slots (b : BestState) (evs : list event) : list slot :=
  match evs with
  | [] => []
  | EvCsv row :: evs' =>
      if Qgtb (row_val_avg_acc row) (global_best_avg_acc b)
      then Latest :: Best :: expected_slots (best_of_row row) evs'
      else Latest :: expected_slots b evs'
  | _ :: evs' => expected_slots b evs'
  end.

(** What C6 says of one epoch of the loop, entered with the learner [l]
    and left with [l1]: the training pass hands back [l1]; the validation
    block that follows writes the state of the network of [l1], the
    current model, to the checkpoint path, once, and the checkpoint file
    holds it when the epoch ends, whatever the comparison with the best
    state gave. *)
Definition epoch_checkpoint (args : Params) (tl vl : DataLoader)
  (epoch : nat) (l : Learner) (best : BestState) (w : World)
  (l1 : Learner) (best1 : BestState) (w1 : World) : Prop :=
  exists lt w0 evs,
    train_batch args tl l w = (inr lt, w0)
    /\ l1 = fst lt
    /\ validate args vl epoch (net l1) (snd lt) best w0 = (inr best1, w1)
    /\ trace w1 = trace w0 ++ evs
    /\ In (EvSave Latest (checkpoint_path args) (state_dict (net l1))) evs
    /\ count (is_save Latest) evs = 1%nat
    /\ lookup (checkpoint_path args) (fs w1) = Some (state_dict (net l1)).

End CheckpointStatements.

Section RunStatements.
Context {C : Collab}.

(** The validation balanced accuracies reported by a trace, in order. *)
Fixpoint reported_avg_accs (evs : list event) : list Q :=
  match evs with
  | [] => []
  | EvCsv row :: evs' => Qred (row_val_avg_acc row) :: reported_avg_accs evs'
  | _ :: evs' => reported_avg_accs evs'
  end.

(** What C1 says of the epoch loop and of a run of [train] that is not a
    dry run.  Over any epochs of the loop, from any best state: the events
    are the records of these epochs, one row for each, the best state the
    loop hands back is the one the rows replay to, the saves go to the
    slots the rows call for, and the best balanced accuracy has not
    decreased.  A run starts from the all-zero best state and prints the
    best state of its last epoch. *)
Definition best_state_policy (args : Params) (w : World) : Prop :=
  (forall tl vl todo l best w0 lb w1,
      epoch_loop args tl vl todo l best w0 = (inr lb, w1) ->
      exists evs,
        trace w1 = trace w0 ++ evs
        /\ epoch_records args best evs (snd lb)
        /\ length (csv_rows evs) = length todo
        /\ snd lb = best_after best evs
        /\ saved_slots evs = expected_slots best evs
        /\ (global_best_avg_acc best <= global_best_avg_acc (snd lb))%Q)
  /\ (exists evs b,
        trace (snd (train args w)) = trace w ++ evs ++ [EvSummary b]
        /\ epoch_records args BestState0 evs b
        /\ length (csv_rows evs) = epochs args
        /\ b = best_after BestState0 evs
        /\ saved_slots evs = expected_slots BestState0 evs
        /\ (0 <= global_best_avg_acc b)%Q).

(** What C6 says of the epoch loop and of a run of [train] that is not a
    dry run.  Every epoch of the loop, wherever it stands among the
    others, checkpoints the current model: the loop runs the epochs before
    it, then this epoch as [epoch_checkpoint] has it, then the epochs
    after it from the learner and the best state this epoch left.  A run
    writes the checkpoint once per epoch, and with an epoch or more the
    checkpoint file holds at the end the state of the network the loop
    ended with. *)
Definition checkpoint_policy (args : Params) (w : World) : Prop :=
  (forall tl vl before epoch after l best w0 lb w1,
      epoch_loop args tl vl (before ++ epoch :: after) l best w0
      = (inr lb, w1) ->
      exists la ba wa l1 b1 wb,
        epoch_loop args tl vl before l best w0 = (inr (la, ba), wa)
        /\ epoch_checkpoint args tl vl epoch la ba wa l1 b1 wb
        /\ epoch_loop args tl vl after l1 b1 wb = (inr lb, w1))
  /\ (exists evs,
        trace (snd (train args w)) = trace w ++ evs
        /\ count (is_save Latest) evs = epochs args)
  /\ ((1 <= epochs args)%nat ->
      exists tl vl l w0 lb w1,
        setup args w = (inr (tl, vl, l), w0)
        /\ epoch_loop args tl vl (seq 0 (epochs args)) l BestState0 w0
           = (inr lb, w1)
        /\ lookup (checkpoint_path args) (fs (snd (train args w)))
           = Some (state_dict (net (fst lb)))).

End RunStatements.

Module ToyRun.

(** Three epochs over two training samples in one batch and ten validation
    samples in two batches: the validation balanced accuracies are 1/2,
    1/2 and 3/5. *)
Definition args : Params :=
  (Toy.params "DGCNN" 3 2 5 false [1; 1]
              [0; 1; 2; 3; 4; 5; 6; 7; 8; 9] [4; 5; 6; 7])%nat.

Definition validation_set : DataLoader :=
  {| ld_dataset := Toy.samples [0; 1; 2; 3; 4; 5; 6; 7; 8; 9]%nat;
     ld_batch_size := 5; ld_shuffle := true; ld_drop_last := false |}.

Definition training_set : DataLoader :=
  {| ld_dataset := Toy.samples [1; 1]%nat;
     ld_batch_size := 2; ld_shuffle := true; ld_drop_last := true |}.

End ToyRun.

(** ** Statements about the result of a pass *)

Section PassStatements.
Context {C : Collab}.

(** The loss of the validation loop on one batch. *)
Definition validation_loss (m : Model) (b : list sample) : result tval :=
  criterion (forward false m (permute_0_2_1 (map fst b)))
            (squeeze (map snd b)).

(** The losses of the training loop, batch after batch, each with the size
    of its batch; the network is updated between two batches. *)
Fixpoint train_losses (batches : list (list sample)) (l : Learner)
  : list (result tval * nat) :=
  match batches with
  | [] => []
  | b :: rest =>
      let label := squeeze (map snd b) in
      let data := permute_0_2_1 (map fst b) in
      let '(net', opt') := optim_step (opt l) (opt_lr l) (net l) data label in
      (criterion (forward true (net l) data) label, length b)
      :: train_losses rest {| net := net'; opt := opt'; opt_lr := opt_lr l;
                              scheduler := scheduler l |}
  end.

(** The predictions of the training loop, batch after batch. *)
Fixpoint train_preds (batches : list (list sample)) (l : Learner)
  : list (list Z) :=
  match batches with
  | [] => []
  | b :: rest =>
      let label := squeeze (map snd b) in
      let data := permute_0_2_1 (map fst b) in
      let '(net', opt') := optim_step (opt l) (opt_lr l) (net l) data label in
      map max_index (rows (forward true (net l) data))
      :: train_preds rest {| net := net'; opt := opt'; opt_lr := opt_lr l;
                            scheduler := scheduler l |}
  end.

(** Sum over the batches of (loss x batch size), over the number of
    samples. *)
Definition weighted_mean (ls : list (tval * nat)) : tval :=
  tdivz (tsum (map (fun p => tscale (fst p) (Z.of_nat (snd p))) ls))
        (Z.of_nat (list_sum (map snd ls))).

End PassStatements.

Module ToyOdd.

(** Two training samples in one batch of two; three validation samples in
    batches of two, so the last validation batch has a single sample. *)
Definition args : Params :=
  (Toy.params "DGCNN" 1 2 2 false [1; 1] [1; 2; 3] [])%nat.

Definition validation_set : DataLoader :=
  {| ld_dataset := Toy.samples [1; 2; 3]%nat;
     ld_batch_size := 2; ld_shuffle := true; ld_drop_last := false |}.

(** Two training samples in batches of one. *)
Definition args_one : Params :=
  (Toy.params "DGCNN" 1 1 2 false [1; 1] [1; 2] [])%nat.

End ToyOdd.

(** ** Further statements: the loss *)

(** The soft targets of lines 47-48: the one-hot rows of the gold labels,
    smoothed. *)
Definition smoothed_targets (pred : tensor2) (gold : ndarray)
  : result tensor2 :=
  let gold := view_flat gold in
  let n_class := size1 pred in
  rbind (scatter1 (zeros_like pred) gold (Fin 1)) (fun one_hot =>
  inr (tmap2 tadd
         (tmap (fun x => tmul x (Fin (1 - eps))) one_hot)
         (tmap (fun x => tdivz (tmul (tsub (Fin 1) x) (Fin eps))
                               (Z.of_nat n_class - 1)) one_hot))).

(** A gold label that names no class of the logits. *)
Definition out_of_range (n_class : nat) (g : Z) : Prop :=
  ~ (0 <= g < Z.of_nat n_class)%Z.

(** The entries of the soft target of class [g], from column [k] on. *)
Definition soft_reals (n : nat) (g : Z) (k len : nat) : list R :=
  map (fun j => if (Z.of_nat j =? g)%Z then (1 - eps)%R
                else (eps / (INR n - 1))%R) (seq k len).

(** ** Further statements: files and traces *)

Section FileStatements.
Context {C : Collab}.

(** The files after the saves of a trace. *)
Fixpoint apply_saves (evs : list event) (files : list (string * StateDict))
  : list (string * StateDict) :=
  match evs with
  | [] => files
  | EvSave _ path sd :: evs' => apply_saves evs' ((path, sd) :: files)
  | _ :: evs' => apply_saves evs' files
  end.

(** From every world, [m] appends events that all satisfy [Q], the files
    change by the saves among them and by nothing else, and a value it
    returns satisfies [post]. *)
Definition tracked {A : Type} (Q : event -> Prop) (m : M A)
  (post : A -> Prop) : Prop :=
  forall w, exists evs,
    trace (snd (m w)) = trace w ++ evs
    /\ Forall Q evs
    /\ fs (snd (m w)) = apply_saves evs (fs w)
    /\ match fst (m w) with
       | inr a => post a
       | inl _ => True
       end.

(** What a call of [test] may put on the trace: forward passes in
    evaluation mode and, when no state was passed, the summary line. *)
Definition test_event (state : option string) (ev : event) : Prop :=
  match ev with
  | EvForward false => True
  | EvLog (MsgTest _ _) => state = None
  | _ => False
  end.

(** [b] is what the strict comparison of line 164 leaves of [start] after
    the rows: [start] itself when no row is above it, and otherwise the
    first row that reaches the highest validation balanced accuracy. *)
Definition first_maximum (start : BestState) (rows : list csv_row)
  (b : BestState) : Prop :=
  (b = start
   /\ Forall (fun r => (row_val_avg_acc r <= global_best_avg_acc start)%Q)
             rows)
  \/ (exists pre row post,
        rows = pre ++ row :: post
        /\ b = best_of_row row
        /\ (global_best_avg_acc start < row_val_avg_acc row)%Q
        /\ Forall (fun r => (row_val_avg_acc r < row_val_avg_acc row)%Q) pre
        /\ Forall (fun r => (row_val_avg_acc r <= row_val_avg_acc row)%Q)
                  post).

(** An event that leaves the best slot alone: no save to the best slot,
    and a save of the latest state goes to the checkpoint path. *)
Definition keeps_best_slot (args : Params) (ev : event) : Prop :=
  match ev with
  | EvSave Best _ _ => False
  | EvSave Latest path _ => path = checkpoint_path args
  | _ => True
  end.

(** The events of a loop that started with the best state [start] and
    ended with [b]: either no row was above [start], [b] is [start] and
    the best slot was left alone; or [b] is the first row that reaches the
    highest validation balanced accuracy, the state saved with that row
    went to the checkpoint path and to the best slot, and the best slot
    was left alone afterwards. *)
Definition best_record (args : Params) (start : BestState)
  (evs : list event) (b : BestState) : Prop :=
  (b = start
   /\ Forall (fun r => (row_val_avg_acc r <= global_best_avg_acc start)%Q)
             (csv_rows evs)
   /\ Forall (keeps_best_slot args) evs)
  \/ (exists pre row sd post,
        evs = pre ++ EvCsv row
                  :: EvSave Latest (checkpoint_path args) sd
                  :: EvSave Best best_model_path sd :: post
        /\ b = best_of_row row
        /\ (global_best_avg_acc start < row_val_avg_acc row)%Q
        /\ Forall (fun r => (row_val_avg_acc r < row_val_avg_acc row)%Q)
                  (csv_rows pre)
        /\ Forall (fun r => (row_val_avg_acc r <= row_val_avg_acc row)%Q)
                  (csv_rows post)
        /\ Forall (keeps_best_slot args) post).

(** What the lines before the epoch loop may put on the trace. *)
Definition setup_event (ev : event) : Prop :=
  match ev with
  | EvLog (MsgModel _) | EvPrint _ => True
  | _ => False
  end.

(** Lines 211-212: train, then evaluate the best slot. *)
Definition main (params : Params) : M (Q * Q) :=
  train params ;;; test params None.

End FileStatements.

(** The toy configuration, resuming from a checkpoint file. *)
Module ToyResume.

Definition args : Params :=
  {| model := "DGCNN"; optimizer := "Adam"; lr := 1 / 10000;
     momentum := 9 / 10; epochs := 1; batch_size := 2;
     test_batch_size := 2; num_points := 1024; random_state := 1;
     dry_ryn := false; last_checkpoint := "./tmp/output/model.t7";
     checkpoint_path := "./tmp/output/model.t7";
     dataset_loader := fun p _ _ =>
       match p with
       | TrainPart => Toy.samples [1; 1]%nat
       | ValidationPart => Toy.samples [1; 2]%nat
       | TestPart => []
       end |}.

(** A world whose checkpoint file holds the state of a network after four
    optimizer steps. *)
Definition world : @World Toy.collab :=
  let files : list (string * @StateDict Toy.collab) :=
    [("./tmp/output/model.t7"%string, 4%nat)] in
  {| fs := files; trace := []; draws := 0 |}.

End ToyResume.
(** * Properties of the numeric domain *)

Lemma Rsign_0 : Rsign 0 = Eq.
Proof.
  unfold Rsign. destruct (total_order_T 0 0) as [[H | H] | H]; try reflexivity;
    exfalso; lra.
Qed.

Lemma Rsign_eq0 (r : R) : r = 0%R -> Rsign r = Eq.
Proof. intros ->. apply Rsign_0. Qed.

Lemma Rsign_opp (r : R) : Rsign (- r) = CompOpp (Rsign r).
Proof.
  unfold Rsign.
  destruct (total_order_T (- r) 0) as [[H | H] | H];
    destruct (total_order_T r 0) as [[K | K] | K];
    try reflexivity; exfalso; lra.
Qed.

Lemma tneg_inf_of (c : comparison) : tneg (inf_of c) = inf_of (CompOpp c).
Proof. destruct c; reflexivity. Qed.

Lemma tneg_tadd (x y : tval) : tneg (tadd x y) = tadd (tneg x) (tneg y).
Proof.
  destruct x, y; simpl; try reflexivity. f_equal. ring.
Qed.

Lemma tneg_tdivz (x : tval) (n : Z) : tneg (tdivz x n) = tdivz (tneg x) n.
Proof.
  destruct x; simpl; try reflexivity.
  - destruct (n =? 0)%Z.
    + now rewrite tneg_inf_of, Rsign_opp.
    + simpl. f_equal. unfold Rdiv. ring.
  - now destruct (n <? 0)%Z.
  - now destruct (n <? 0)%Z.
Qed.

Lemma fold_tadd_tneg (l : list tval) (a : tval) :
  fold_left tadd (map tneg l) (tneg a) = tneg (fold_left tadd l a).
Proof.
  revert a. induction l as [| x l IH]; intros a; simpl; [reflexivity |].
  now rewrite <- tneg_tadd, IH.
Qed.

Lemma tsum_tneg (l : list tval) : tsum (map tneg l) = tneg (tsum l).
Proof.
  unfold tsum. rewrite <- fold_tadd_tneg. simpl. now rewrite Ropp_0.
Qed.

Lemma tmean_tneg (l : list tval) : tmean (map tneg l) = tneg (tmean l).
Proof.
  unfold tmean. now rewrite length_map, tsum_tneg, tneg_tdivz.
Qed.

Lemma tadd_NaN_r (x : tval) : tadd x NaN = NaN.
Proof. now destruct x. Qed.

Lemma tmul_NaN_l (x : tval) : tmul NaN x = NaN.
Proof. now destruct x. Qed.

Lemma fold_tadd_NaN (l : list tval) : fold_left tadd l NaN = NaN.
Proof. induction l as [| x l IH]; simpl; [reflexivity | exact IH]. Qed.

(** * The smoothed loss *)

Lemma map2_map_same {A B C D : Type} (F : B -> C -> D) (a : A -> B)
  (b : A -> C) (l : list A) :
  map2 F (map a l) (map b l) = map (fun x => F (a x) (b x)) l.
Proof.
  induction l as [| x l IH]; simpl; [reflexivity | now rewrite IH].
Qed.

Lemma map_map2 {A B C D : Type} (F : A -> B -> C) (g : C -> D)
  (l : list A) (m : list B) :
  map g (map2 F l m) = map2 (fun a b => g (F a b)) l m.
Proof.
  revert m. induction l as [| a l IH]; intros [| b m]; simpl;
    try reflexivity. now rewrite IH.
Qed.

Lemma length_map2 {A B C : Type} (F : A -> B -> C) (l : list A)
  (m : list B) :
  length l = length m -> length (map2 F l m) = length l.
Proof.
  revert m. induction l as [| a l IH]; intros [| b m]; simpl;
    try discriminate; try reflexivity.
  intros E. f_equal. apply IH. now injection E.
Qed.

Lemma IZR_classes (n : nat) : IZR (Z.of_nat n - 1) = (INR n - 1)%R.
Proof. now rewrite minus_IZR, <- INR_IZR_INZ. Qed.

Lemma smooth_one (n : nat) :
  (2 <= n)%nat -> smooth n (Fin 1) = Fin (1 - eps).
Proof.
  intros Hn. unfold smooth. simpl.
  destruct (Z.eqb_spec (Z.of_nat n - 1) 0) as [E | E]; [lia |].
  simpl. f_equal. rewrite IZR_classes.
  assert (2 <= INR n)%R by (change 2%R with (INR 2); now apply le_INR).
  field. lra.
Qed.

Lemma smooth_zero (n : nat) :
  (2 <= n)%nat -> smooth n (Fin 0) = Fin (eps / (INR n - 1)).
Proof.
  intros Hn. unfold smooth. simpl.
  destruct (Z.eqb_spec (Z.of_nat n - 1) 0) as [E | E]; [lia |].
  simpl. f_equal. rewrite IZR_classes.
  assert (2 <= INR n)%R by (change 2%R with (INR 2); now apply le_INR).
  field. lra.
Qed.

Lemma smooth_zeros (n : nat) (r : list tval) (g : Z) (k : nat) :
  (2 <= n)%nat -> (g < Z.of_nat k)%Z ->
  map (smooth n) (map (fun _ => Fin 0) r) =
  map (fun i => if (Z.of_nat i =? g)%Z
                then Fin (1 - eps)
                else Fin (eps / (INR n - 1)))
      (seq k (length r)).
Proof.
  intros Hn. revert k.
  induction r as [| x r IH]; intros k Hk; simpl; [reflexivity |].
  rewrite smooth_zero by assumption.
  destruct (Z.eqb_spec (Z.of_nat k) g) as [E | E]; [lia |].
  f_equal. apply IH. lia.
Qed.

Lemma smooth_row_shift (n : nat) (r : list tval) (j k : nat) :
  (2 <= n)%nat -> (j < length r)%nat ->
  map (smooth n) (set_nth j (Fin 1) (map (fun _ => Fin 0) r)) =
  map (fun i => if (Z.of_nat i =? Z.of_nat (k + j))%Z
                then Fin (1 - eps)
                else Fin (eps / (INR n - 1)))
      (seq k (length r)).
Proof.
  intros Hn. revert j k.
  induction r as [| x r IH]; intros j k Hj; simpl in Hj; [lia |].
  destruct j as [| j]; simpl.
  - rewrite smooth_one by assumption.
    replace (k + 0)%nat with k by lia. rewrite Z.eqb_refl. f_equal.
    apply smooth_zeros; [assumption | lia].
  - rewrite smooth_zero by assumption.
    destruct (Z.eqb_spec (Z.of_nat k) (Z.of_nat (k + S j))) as [E | E];
      [lia |].
    f_equal. rewrite (IH j (S k)) by lia.
    now replace (S k + j)%nat with (k + S j)%nat by lia.
Qed.

Lemma smooth_row (n : nat) (r : list tval) (g : Z) :
  (2 <= n)%nat -> length r = n -> (0 <= g < Z.of_nat n)%Z ->
  map (smooth n) (set_nth (Z.to_nat g) (Fin 1) (map (fun _ => Fin 0) r)) =
  soft_target n g.
Proof.
  intros Hn Hr Hg. unfold soft_target.
  rewrite (smooth_row_shift r (j := Z.to_nat g) 0 Hn) by lia.
  rewrite Hr. simpl. now rewrite Z2Nat.id by lia.
Qed.

Lemma scatter_rows_zeros (n : nat) (rs : list (list tval)) (index : list Z)
  (v : tval) :
  length index = length rs ->
  Forall (fun g => (0 <= g < Z.of_nat n)%Z) index ->
  scatter_rows n (map (map (fun _ => Fin 0)) rs) index v =
  inr (map2 (fun g r => set_nth (Z.to_nat g) v (map (fun _ => Fin 0) r))
            index rs).
Proof.
  revert rs. induction index as [| g index IH]; intros [| r rs] E Hg;
    simpl in *; try discriminate; [reflexivity |].
  inversion Hg as [| ? ? Hg1 Hg2]; subst.
  replace ((0 <=? g)%Z && (g <? Z.of_nat n)%Z)%bool with true
    by (symmetry; apply andb_true_intro; split;
        [apply Z.leb_le | apply Z.ltb_lt]; lia).
  rewrite IH by (try assumption; now injection E). reflexivity.
Qed.

Lemma smoothed_rows (n : nat) (rs : list (list tval)) (index : list Z) :
  (2 <= n)%nat -> length index = length rs ->
  Forall (fun r => length r = n) rs ->
  Forall (fun g => (0 <= g < Z.of_nat n)%Z) index ->
  map tsum
    (map2 (map2 tmul)
       (map (map (smooth n))
          (map2 (fun g r => set_nth (Z.to_nat g) (Fin 1)
                              (map (fun _ => Fin 0) r)) index rs))
       (map log_softmax_row rs)) =
  map2 (fun g row => dot (soft_target n g) (log_softmax_row row)) index rs.
Proof.
  intros Hn. revert rs.
  induction index as [| g index IH]; intros [| r rs] E Hr Hg;
    simpl in *; try discriminate; [reflexivity |].
  inversion Hr; inversion Hg; subst.
  rewrite smooth_row by (try assumption; reflexivity).
  unfold dot at 1. f_equal. apply IH; try assumption. now injection E.
Qed.

Lemma smooth_tensor (n : nat) (t : tensor2) :
  tmap2 tadd
    (tmap (fun x => tmul x (Fin (1 - eps))) t)
    (tmap (fun x => tdivz (tmul (tsub (Fin 1) x) (Fin eps))
                          (Z.of_nat n - 1)) t)
  = tmap (smooth n) t.
Proof.
  unfold tmap2, tmap. cbn [rows size1]. f_equal.
  rewrite map2_map_same. apply map_ext. intros r.
  now rewrite map2_map_same.
Qed.

(** C2. With smoothing, for logits of shape batch x classes with at least
    two classes and one valid gold label per row, [calculate_loss] returns
    the mean over the batch of the negative dot product of the soft target
    (mass [1 - eps] on the gold class, [eps / (classes - 1)] on the others,
    [eps = 0.2]) with the log-softmax of the logits. *)
Theorem calculate_loss_smoothing (pred : tensor2) (gold : ndarray) :
  well_shaped pred ->
  (2 <= size1 pred)%nat ->
  length (view_flat gold) = size0 pred ->
  Forall (fun g => (0 <= g < Z.of_nat (size1 pred))%Z) (view_flat gold) ->
  calculate_loss pred gold true = inr (smoothed_loss_spec pred (view_flat gold))
  /\ eps = (2 / 10)%R.
Proof.
  intros Hshape Hn Hlen Hgold. split; [| reflexivity].
  unfold calculate_loss, scatter1, zeros_like. cbn [rows size1].
  rewrite scatter_rows_zeros by assumption. cbn [rbind]. f_equal.
  rewrite smooth_tensor.
  unfold tmap2, tmap, sum_dim1, log_softmax. cbn [rows size1].
  rewrite smoothed_rows by assumption.
  unfold smoothed_loss_spec.
  rewrite <- tmean_tneg. now rewrite map_map2.
Qed.

(** C2 at a batch of two samples over three classes. *)
Lemma calculate_loss_smoothing_witness :
  calculate_loss (Tensor2 3 [[Fin 0; Fin 1; Fin 2]; [Fin 2; Fin 0; Fin 0]])
                 (Arr1 [2; 0]%Z) true
  = inr (smoothed_loss_spec
           (Tensor2 3 [[Fin 0; Fin 1; Fin 2]; [Fin 2; Fin 0; Fin 0]])
           [2; 0]%Z)
  /\ eps = (2 / 10)%R.
Proof.
  apply (@calculate_loss_smoothing
           (Tensor2 3 [[Fin 0; Fin 1; Fin 2]; [Fin 2; Fin 0; Fin 0]])
           (Arr1 [2; 0]%Z)).
  - repeat constructor.
  - simpl. lia.
  - reflexivity.
  - simpl. repeat constructor; lia.
Defined.

(** * One class: the division by zero of the smoothing term *)

Lemma length_log_softmax_row (r : list tval) :
  length (log_softmax_row r) = length r.
Proof.
  unfold log_softmax_row.
  destruct (existsb is_nan_or_pinf r || forallb is_ninf r)%bool;
    now rewrite length_map.
Qed.

Lemma smooth_one_class : smooth 1 (Fin 1) = NaN.
Proof.
  unfold smooth. cbn. rewrite Rsign_eq0 by ring. reflexivity.
Qed.

Lemma tmean_all_NaN {A : Type} (l : list A) :
  tmean (map (fun _ => NaN) l) = NaN.
Proof.
  unfold tmean, tsum. destruct l as [| a l]; cbn.
  - now rewrite Rsign_0.
  - now rewrite fold_tadd_NaN.
Qed.

Lemma one_class_rows (rs : list (list tval)) (index : list Z) :
  length index = length rs ->
  Forall (fun r => length r = 1%nat) rs ->
  Forall (fun g => (0 <= g < 1)%Z) index ->
  map tsum
    (map2 (map2 tmul)
       (map (map (smooth 1))
          (map2 (fun g r => set_nth (Z.to_nat g) (Fin 1)
                              (map (fun _ => Fin 0) r)) index rs))
       (map log_softmax_row rs)) =
  map (fun _ => NaN) rs.
Proof.
  revert rs. induction index as [| g index IH]; intros [| r rs] E Hr Hg;
    cbn [map map2 length] in *; try discriminate; [reflexivity |].
  inversion Hr as [| ? ? Hr1 Hr2]; inversion Hg as [| ? ? Hg1 Hg2]; subst.
  rewrite IH by (try assumption; now injection E). f_equal.
  assert (L := length_log_softmax_row r). rewrite Hr1 in L.
  destruct r as [| x [| ? ?]]; try discriminate.
  destruct (log_softmax_row [x]) as [| y [| ? ?]]; try discriminate.
  replace g with 0%Z by lia. cbn [Z.to_nat map set_nth map2].
  rewrite smooth_one_class, tmul_NaN_l. reflexivity.
Qed.

(** With one class the smoothing term divides by zero elementwise, the
    soft target is [nan], and so is the loss. *)
Lemma calculate_loss_one_class (pred : tensor2) (gold : ndarray) :
  size1 pred = 1%nat ->
  well_shaped pred ->
  length (view_flat gold) = size0 pred ->
  Forall (fun g => (0 <= g < 1)%Z) (view_flat gold) ->
  calculate_loss pred gold true = inr NaN.
Proof.
  intros H1 Hshape Hlen Hgold. unfold well_shaped in Hshape.
  unfold calculate_loss, scatter1, zeros_like. cbn [rows size1].
  rewrite H1 in *.
  rewrite scatter_rows_zeros by assumption. cbn [rbind]. f_equal.
  rewrite smooth_tensor.
  unfold tmap2, tmap, sum_dim1, log_softmax. cbn [rows size1].
  rewrite one_class_rows by assumption.
  now rewrite tmean_all_NaN.
Qed.

(** C8, as the code has it.  On logits with exactly one class and a valid
    gold label per row, [calculate_loss] with smoothing raises nothing: it
    returns [nan]. *)
Theorem calculate_loss_one_class_is_nan (pred : tensor2) (gold : ndarray) :
  size1 pred = 1%nat ->
  well_shaped pred ->
  length (view_flat gold) = size0 pred ->
  Forall (fun g => (0 <= g < 1)%Z) (view_flat gold) ->
  calculate_loss pred gold true = inr NaN
  /\ calculate_loss pred gold true <> inl ZeroDivisionError.
Proof.
  intros H1 Hshape Hlen Hgold.
  rewrite (calculate_loss_one_class gold H1 Hshape Hlen Hgold).
  split; [reflexivity | discriminate].
Qed.

(** C8 at two rows of one logit each. *)
Lemma calculate_loss_one_class_is_nan_witness :
  calculate_loss (Tensor2 1 [[Fin 3]; [Fin (-1)]]) (Arr1 [0; 0]%Z) true
  = inr NaN
  /\ calculate_loss (Tensor2 1 [[Fin 3]; [Fin (-1)]]) (Arr1 [0; 0]%Z) true
     <> inl ZeroDivisionError.
Proof.
  apply (@calculate_loss_one_class_is_nan
           (Tensor2 1 [[Fin 3]; [Fin (-1)]]) (Arr1 [0; 0]%Z)).
  - reflexivity.
  - repeat constructor.
  - reflexivity.
  - simpl. repeat constructor; lia.
Defined.

(** C8 as stated fails: on one sample with one logit the call returns a
    value and raises no division by zero. *)
Lemma calculate_loss_one_class_returns :
  calculate_loss (Tensor2 1 [[Fin 3]]) (Arr0 0) true = inr NaN
  /\ calculate_loss (Tensor2 1 [[Fin 3]]) (Arr0 0) true
     <> inl ZeroDivisionError.
Proof.
  assert (E : calculate_loss (Tensor2 1 [[Fin 3]]) (Arr0 0) true = inr NaN).
  { apply calculate_loss_one_class.
    - reflexivity.
    - repeat constructor.
    - reflexivity.
    - simpl. repeat constructor; lia. }
  rewrite E. split; [reflexivity | discriminate].
Qed.

(** * Model selection *)

(** C7. The architecture is a fixed function of the configured name: the
    three recognised names select their own constructor, and every other
    name selects DGCNN; the selection never fails. *)
Theorem select_model_fallback {C : Collab} (params : Params) :
  ~ In (model params) ["PointNet"; "PointAttentionNet"; "AttentionDGCNN"]%string ->
  select_model params = build DGCNN params
  /\ select_arch "PointNet" = PointNet
  /\ select_arch "PointAttentionNet" = PointAttentionNet
  /\ select_arch "AttentionDGCNN" = AttentionDGCNN
  /\ (forall p : Params, select_model p = build (select_arch (model p)) p).
Proof.
  intros Hout. repeat split. unfold select_model, select_arch.
  destruct (String.eqb_spec (model params) "PointNet") as [E | _];
    [exfalso; apply Hout; rewrite E; simpl; tauto |].
  destruct (String.eqb_spec (model params) "PointAttentionNet") as [E | _];
    [exfalso; apply Hout; rewrite E; simpl; tauto |].
  destruct (String.eqb_spec (model params) "AttentionDGCNN") as [E | _];
    [exfalso; apply Hout; rewrite E; simpl; tauto |].
  reflexivity.
Qed.

(** C7 at a name no branch recognises. *)
Lemma select_model_fallback_witness :
  @select_model Toy.collab (Toy.params "Transformer" 1 2 2 false [] [] [])
  = @build Toy.collab DGCNN (Toy.params "Transformer" 1 2 2 false [] [] [])
  /\ select_arch "PointNet" = PointNet
  /\ select_arch "PointAttentionNet" = PointAttentionNet
  /\ select_arch "AttentionDGCNN" = AttentionDGCNN
  /\ (forall p : Params,
        @select_model Toy.collab p
        = @build Toy.collab (select_arch (model p)) p).
Proof.
  apply (@select_model_fallback Toy.collab
           (Toy.params "Transformer" 1 2 2 false [] [] [])).
  simpl. intros [H | [H | [H | H]]]; try discriminate H; exact H.
Defined.

(** * The learning-rate schedule *)

Lemma get_lr_flat (s : CosineAnnealingLR) :
  base_lr s = eta_min s -> get_lr s = eta_min s.
Proof. intros E. unfold get_lr. rewrite E. unfold Rdiv. ring. Qed.

Lemma iter_scheduler_step (t : nat) (s : CosineAnnealingLR) :
  base_lr (Nat.iter t scheduler_step s) = base_lr s
  /\ eta_min (Nat.iter t scheduler_step s) = eta_min s
  /\ T_max (Nat.iter t scheduler_step s) = T_max s
  /\ last_epoch (Nat.iter t scheduler_step s) = (t + last_epoch s)%nat.
Proof.
  induction t as [| t (Hb & He & HT & Hl)]; simpl; [tauto |].
  now rewrite Hb, He, HT, Hl.
Qed.

(** * Reasoning about computations in [M] *)

Section MonadLemmas.
Context {C : Collab}.

Lemma bind_inr {A B : Type} (m : M A) (k : A -> M B) (w w' : World) (b : B) :
  bind m k w = (inr b, w') ->
  exists a w1, m w = (inr a, w1) /\ k a w1 = (inr b, w').
Proof.
  unfold bind. destruct (m w) as [[e | a] w1]; [discriminate |].
  intros E. now exists a, w1.
Qed.

Lemma bind_of_inr {A B : Type} (m : M A) (k : A -> M B) (w w1 : World)
  (a : A) :
  m w = (inr a, w1) -> bind m k w = k a w1.
Proof. unfold bind. now intros ->. Qed.

Lemma bind_of_inl {A B : Type} (m : M A) (k : A -> M B) (w w1 : World)
  (e : exn) :
  m w = (inl e, w1) -> bind m k w = (inl e, w1).
Proof. unfold bind. now intros ->. Qed.

Lemma count_app (f : event -> bool) (l1 l2 : list event) :
  count f (l1 ++ l2) = (count f l1 + count f l2)%nat.
Proof. unfold count. now rewrite filter_app, length_app. Qed.

Section Bounded.
Variable Q : event -> Prop.
Variable f : event -> bool.

Lemma bounded_ret {A : Type} (a : A) (post : A -> Prop) :
  post a -> bounded Q f 0 (ret a) post.
Proof.
  intros Ha w. exists []. cbn. rewrite app_nil_r. auto.
Qed.

Lemma bounded_lift {A : Type} (r : result A) :
  bounded Q f 0 (lift r) (fun a => r = inr a).
Proof.
  intros w. exists []. cbn. rewrite app_nil_r.
  repeat split; auto. now destruct r.
Qed.

Lemma bounded_emit (ev : event) :
  Q ev -> bounded Q f (if f ev then 1 else 0) (emit ev) (fun _ => True).
Proof.
  intros Hev w. exists [ev]. cbn. repeat split; auto.
  unfold count. cbn. now destruct (f ev).
Qed.

Lemma bounded_torch_save (s : slot) (path : string) (sd : StateDict) :
  Q (EvSave s path sd) ->
  bounded Q f (if f (EvSave s path sd) then 1 else 0)
          (torch_save s path sd) (fun _ => True).
Proof.
  intros Hev w. exists [EvSave s path sd]. cbn. repeat split; auto.
  unfold count. cbn. now destruct (f (EvSave s path sd)).
Qed.

Lemma bounded_torch_load (path : string) :
  bounded Q f 0 (torch_load path) (fun _ => True).
Proof.
  intros w. exists []. unfold torch_load.
  destruct (lookup path (fs w)); cbn; rewrite app_nil_r; auto.
Qed.

Lemma bounded_iterate (ld : DataLoader) :
  bounded Q f 0 (iterate ld) (fun bs => exists k, bs = loader_batches ld k).
Proof.
  intros w. exists []. cbn. rewrite app_nil_r. repeat split; auto.
  now exists (draws w).
Qed.

Lemma bounded_bind {A B : Type} (n1 n2 : nat) (m : M A) (k : A -> M B)
  (post1 : A -> Prop) (post2 : B -> Prop) :
  bounded Q f n1 m post1 ->
  (forall a, post1 a -> bounded Q f n2 (k a) post2) ->
  bounded Q f (n1 + n2) (bind m k) post2.
Proof.
  intros Hm Hk w. destruct (Hm w) as (evs1 & E1 & Q1 & N1 & P1).
  unfold bind. destruct (m w) as [[e | a] w1]; cbn in *.
  - exists evs1. repeat split; auto. lia.
  - destruct (Hk a P1 w1) as (evs2 & E2 & Q2 & N2 & P2).
    exists (evs1 ++ evs2). rewrite E2, E1, app_assoc.
    repeat split; auto.
    + now apply Forall_app.
    + rewrite count_app. lia.
Qed.

Lemma bounded_weaken {A : Type} (n n' : nat) (m : M A)
  (post post' : A -> Prop) :
  bounded Q f n m post -> (n <= n')%nat -> (forall a, post a -> post' a) ->
  bounded Q f n' m post'.
Proof.
  intros Hm Hn Hp w. destruct (Hm w) as (evs & E & HQ & N & P).
  exists evs. repeat split; auto; [lia |].
  destruct (fst (m w)); auto.
Qed.

End Bounded.
End MonadLemmas.

(** Splits a [bind] that returned into its two steps. *)
Ltac inv_bind H :=
  repeat match type of H with
         | bind _ _ _ = (inr _, _) =>
             let a := fresh "a" in
             let w1 := fresh "w" in
             let H1 := fresh "H" in
             apply bind_inr in H; destruct H as (a & w1 & H1 & H)
         end.

(** * The effective learning rate *)

Section Rate.
Context {C : Collab}.
Variable args : Params.

Local Notation "'Qr'" := (at_configured_rate args).
Local Notation "'nof'" := (fun _ : event => false).

Lemma rate_bind {A B : Type} (m : M A) (k : A -> M B)
  (post1 : A -> Prop) (post2 : B -> Prop) :
  bounded Qr nof 0 m post1 ->
  (forall a, post1 a -> bounded Qr nof 0 (k a) post2) ->
  bounded Qr nof 0 (bind m k) post2.
Proof. exact (@bounded_bind _ Qr nof A B 0 0 m k post1 post2). Qed.

Lemma rate_emit (ev : event) :
  Qr ev -> bounded Qr nof 0 (emit ev) (fun _ => True).
Proof. exact (bounded_emit Qr nof ev). Qed.

Lemma rate_save (s : slot) (path : string) (sd : StateDict) :
  bounded Qr nof 0 (torch_save s path sd) (fun _ => True).
Proof. exact (bounded_torch_save Qr nof s path sd I). Qed.

Lemma train_loop_rate (dry : bool) (batches : list (list sample))
  (l : Learner) (a : Accum) :
  opt_lr l = lr args -> flat_schedule args l ->
  bounded Qr nof 0 (train_loop dry batches l a)
          (fun la => flat_schedule args (fst la)).
Proof.
  revert l a. induction batches as [| b rest IH]; intros l a Hl Hs;
    cbn [train_loop].
  - now apply bounded_ret.
  - eapply rate_bind; [apply rate_emit; exact I |].
    intros _ _.
    eapply rate_bind; [apply bounded_lift |]. intros loss _.
    eapply rate_bind;
      [apply rate_emit; exact Hl |].
    intros _ _.
    destruct (optim_step (opt l) (opt_lr l) (net l)
                (permute_0_2_1 (map fst b)) (squeeze (map snd b)))
      as [net' opt'].
    destruct dry.
    + now apply bounded_ret.
    + now apply IH.
Qed.

Lemma train_batch_rate (ld : DataLoader) (l : Learner) :
  flat_schedule args l ->
  bounded Qr nof 0 (train_batch args ld l)
          (fun lr => flat_schedule args (fst lr)).
Proof.
  intros [Hb He]. unfold train_batch.
  eapply rate_bind; [apply bounded_iterate |]. intros batches _.
  eapply rate_bind.
  - apply train_loop_rate.
    + cbn. rewrite get_lr_flat; cbn; congruence.
    + split; cbn; assumption.
  - intros la Hla.
    eapply rate_bind; [apply bounded_lift |]. intros r _.
    now apply bounded_ret.
Qed.

Lemma validation_loop_rate (batches : list (list sample)) (m : Model)
  (a : Accum) :
  bounded Qr nof 0 (validation_loop batches m a) (fun _ => True).
Proof.
  revert a. induction batches as [| b rest IH]; intros a;
    cbn [validation_loop].
  - now apply bounded_ret.
  - eapply rate_bind; [apply rate_emit; exact I |].
    intros _ _.
    eapply rate_bind; [apply bounded_lift |]. intros loss _. apply IH.
Qed.

Lemma validate_rate (ld : DataLoader) (epoch : nat) (m : Model)
  (tr : tval * list Z * list Z) (best : BestState) :
  bounded Qr nof 0 (validate args ld epoch m tr best) (fun _ => True).
Proof.
  unfold validate. destruct tr as [[train_loss train_true] train_pred].
  eapply rate_bind; [apply rate_emit; exact I |].
  intros _ _.
  eapply rate_bind; [apply bounded_iterate |]. intros batches _.
  eapply rate_bind; [apply validation_loop_rate |]. intros a _.
  do 7 (eapply rate_bind; [apply bounded_lift |]; intros ? _).
  eapply rate_bind; [apply rate_emit; exact I |].
  intros _ _.
  eapply rate_bind;
    [apply rate_save |].
  intros _ _.
  destruct (Qgtb _ _).
  - eapply rate_bind;
      [apply rate_save |].
    intros _ _. now apply bounded_ret.
  - now apply bounded_ret.
Qed.

Lemma epoch_loop_rate (tl vl : DataLoader) (todo : list nat) (l : Learner)
  (best : BestState) :
  flat_schedule args l ->
  bounded Qr nof 0 (epoch_loop args tl vl todo l best) (fun _ => True).
Proof.
  revert l best. induction todo as [| epoch todo IH]; intros l best Hs;
    cbn [epoch_loop].
  - now apply bounded_ret.
  - eapply rate_bind; [now apply train_batch_rate |]. intros lt Hlt.
    destruct (dry_ryn args).
    + now apply bounded_ret.
    + eapply rate_bind; [apply validate_rate |]. intros best' _.
      now apply IH.
Qed.

Lemma setup_rate :
  bounded Qr nof 0 (setup args)
          (fun s => flat_schedule args (snd s)).
Proof.
  unfold setup.
  do 2 (eapply rate_bind; [apply bounded_lift |]; intros ? _).
  do 2 (eapply rate_bind;
        [apply rate_emit; exact I |]; intros _ _).
  eapply rate_bind with (post1 := fun _ => True).
  - destruct (String.eqb (optimizer args) "SGD");
      (eapply rate_bind;
       [apply rate_emit; exact I | intros _ _; now apply bounded_ret]).
  - intros o _.
    eapply rate_bind with (post1 := fun _ => True).
    + destruct (negb (String.eqb (last_checkpoint args) "")).
      * eapply rate_bind; [apply bounded_torch_load |].
        intros sd _. now apply bounded_ret.
      * now apply bounded_ret.
    + intros m _. apply bounded_ret. split; reflexivity.
Qed.

Lemma train_rate :
  bounded Qr nof 0 (train args) (fun _ => True).
Proof.
  unfold train.
  eapply rate_bind; [apply setup_rate |].
  intros [[tl vl] l] Hl. cbn in Hl.
  eapply rate_bind; [now apply epoch_loop_rate |]. intros lb _.
  apply rate_emit; exact I.
Qed.

End Rate.

Lemma step_rates_app {C : Collab} (l1 l2 : list event) :
  step_rates (l1 ++ l2) = step_rates l1 ++ step_rates l2.
Proof.
  induction l1 as [| ev l1 IH]; cbn; [reflexivity |].
  destruct ev; cbn; now rewrite ?IH.
Qed.

Lemma step_rates_configured {C : Collab} (args : Params) (evs : list event) :
  Forall (at_configured_rate args) evs ->
  Forall (fun r => r = lr args) (step_rates evs).
Proof.
  induction 1 as [| ev evs Hev _ IH]; cbn; [constructor |].
  destruct ev; cbn in *; auto.
Qed.

(** C10. The schedule is built with [eta_min] equal to the configured
    rate, which is also its base rate; the cosine formula then gives the
    configured rate at every step, and every optimizer step of a training
    run is taken at that rate. *)
Theorem learning_rate_is_constant {C : Collab} (args : Params) :
  eta_min (make_scheduler args) = lr args
  /\ base_lr (make_scheduler args) = lr args
  /\ (forall t, get_lr (Nat.iter t scheduler_step (make_scheduler args))
                = lr args)
  /\ (forall w, exists evs,
        trace (snd (train args w)) = trace w ++ evs
        /\ Forall (fun r => r = lr args) (step_rates evs)).
Proof.
  repeat split.
  - intros t.
    destruct (iter_scheduler_step t (make_scheduler args)) as (Hb & He & _).
    cbn [make_scheduler base_lr eta_min] in Hb, He.
    rewrite get_lr_flat; congruence.
  - intros w. destruct (train_rate args w) as (evs & E & HQ & _).
    exists evs. split; [exact E | now apply step_rates_configured].
Qed.

(** * The batch sampler *)

Section Sampler.
Variable A : Type.

Lemma batch_sampler_keep (bs : nat) (cur l : list A) :
  concat (batch_sampler bs false cur l) = rev cur ++ l.
Proof.
  revert cur. induction l as [| x l IH]; intros cur; cbn [batch_sampler].
  - destruct cur; cbn; now rewrite ?app_nil_r.
  - destruct (length (x :: cur) =? bs)%nat.
    + cbn [concat]. rewrite IH. cbn. now rewrite <- !app_assoc.
    + rewrite IH. cbn. now rewrite <- app_assoc.
Qed.

Lemma batch_sampler_full (bs : nat) (drop : bool) (cur l : list A) :
  drop = true ->
  Forall (fun b => length b = bs) (batch_sampler bs drop cur l).
Proof.
  intros ->. revert cur.
  induction l as [| x l IH]; intros cur; cbn [batch_sampler].
  - destruct cur; constructor.
  - destruct (Nat.eqb_spec (length (x :: cur)) bs) as [E | E].
    + constructor; [now rewrite length_rev | apply IH].
    + apply IH.
Qed.

Lemma batch_sampler_drop (bs : nat) (cur l : list A) :
  (length cur < bs)%nat ->
  exists rest,
    rev cur ++ l = concat (batch_sampler bs true cur l) ++ rest
    /\ (length rest < bs)%nat.
Proof.
  revert cur. induction l as [| x l IH]; intros cur Hcur;
    cbn [batch_sampler].
  - destruct cur as [| c cur].
    + exists []. split; [reflexivity | exact Hcur].
    + exists (rev (c :: cur)). rewrite app_nil_r. split; [reflexivity |].
      now rewrite length_rev.
  - destruct (Nat.eqb_spec (length (x :: cur)) bs) as [E | E].
    + destruct (IH [] ltac:(cbn [length] in *; lia)) as (rest & Er & Hr).
      exists rest. split; [| exact Hr].
      cbn [concat]. rewrite <- app_assoc, <- Er. cbn.
      now rewrite <- app_assoc.
    + cbn [length] in E.
      destruct (IH (x :: cur) ltac:(cbn; lia)) as (rest & Er & Hr).
      exists rest. split; [| exact Hr].
      rewrite <- Er. cbn. now rewrite <- app_assoc.
Qed.

Lemma length_concat_full (bs : nat) (bl : list (list A)) :
  Forall (fun b => length b = bs) bl ->
  length (concat bl) = (bs * length bl)%nat.
Proof.
  induction 1 as [| b bl Hb _ IH]; cbn; [lia |].
  rewrite length_app, IH, Hb. lia.
Qed.

Lemma batch_sampler_drop_total (bs : nat) (l : list A) :
  (0 < bs)%nat ->
  length (concat (batch_sampler bs true [] l))
  = (bs * (length l / bs))%nat.
Proof.
  intros Hbs.
  destruct (@batch_sampler_drop bs [] l Hbs) as (rest & Er & Hr).
  assert (Hf := @batch_sampler_full bs true [] l eq_refl).
  assert (Hl := length_concat_full Hf).
  cbn [rev app] in Er. apply (f_equal (@length A)) in Er.
  rewrite length_app in Er. rewrite Hl in *.
  f_equal. apply Nat.div_unique with (length rest); lia.
Qed.

End Sampler.

(** * The loops *)

Section Loops.
Context {C : Collab}.

Lemma emit_inr (ev : event) (w w' : World) (u : unit) :
  emit ev w = (inr u, w') ->
  fs w' = fs w /\ trace w' = trace w ++ [ev] /\ draws w' = draws w.
Proof. unfold emit. intros E. injection E as _ <-. cbn. auto. Qed.

Lemma lift_inr {A : Type} (r : result A) (w w' : World) (a : A) :
  lift r w = (inr a, w') -> r = inr a /\ w' = w.
Proof. unfold lift. intros E. injection E as -> ->. auto. Qed.

Lemma ret_inr {A : Type} (x a : A) (w w' : World) :
  ret x w = (inr a, w') -> a = x /\ w' = w.
Proof. unfold ret. intros E. injection E as -> ->. auto. Qed.

Lemma length_permute (data : list cloud) :
  length (permute_0_2_1 data) = length data.
Proof. unfold permute_0_2_1. now rewrite length_map. Qed.

Lemma train_loop_inr (batches : list (list sample)) (l : Learner) (a : Accum)
  (w w' : World) (la : Learner * Accum) :
  train_loop false batches l a w = (inr la, w') ->
  acc_count (snd la) = (acc_count a + length (concat batches))%nat
  /\ acc_true (snd la) = acc_true a ++ batch_labels batches
  /\ length (acc_pred (snd la))
     = (length (acc_pred a) + length batches)%nat
  /\ opt_lr (fst la) = opt_lr l
  /\ scheduler (fst la) = scheduler l
  /\ fs w' = fs w /\ draws w' = draws w
  /\ trace w'
     = trace w
       ++ flat_map (fun _ => [EvForward true; EvOptStep (opt_lr l)]) batches.
Proof.
  revert l a w. induction batches as [| b rest IH]; intros l a w H;
    cbn [train_loop] in H.
  - apply ret_inr in H as [-> ->]. cbn. rewrite !app_nil_r.
    repeat split; auto.
  - inv_bind H.
    apply emit_inr in H0 as (F0 & T0 & D0).
    apply lift_inr in H1 as (E1 & ->).
    apply emit_inr in H2 as (F2 & T2 & D2).
    destruct (optim_step (opt l) (opt_lr l) (net l)
                (permute_0_2_1 (map fst b)) (squeeze (map snd b)))
      as [net' opt'].
    apply IH in H as (Hc & Ht & Hp & Hl & Hs & Hf & Hd & Htr).
    cbn [accumulate acc_count acc_true acc_pred opt_lr scheduler] in *.
    rewrite length_permute, length_map in Hc.
    rewrite length_app in Hp. cbn [length] in Hp.
    repeat split.
    + rewrite Hc. cbn [concat]. rewrite length_app.
      now rewrite Nat.add_assoc.
    + rewrite Ht. cbn [batch_labels map]. now rewrite <- app_assoc.
    + cbn [length]. lia.
    + exact Hl.
    + exact Hs.
    + congruence.
    + congruence.
    + rewrite Htr, T2, T0. cbn [flat_map]. now rewrite <- !app_assoc.
Qed.

Lemma validation_loop_inr (batches : list (list sample)) (m : Model)
  (a a' : Accum) (w w' : World) :
  validation_loop batches m a w = (inr a', w') ->
  acc_count a' = (acc_count a + length (concat batches))%nat
  /\ acc_true a' = acc_true a ++ batch_labels batches
  /\ acc_pred a' = acc_pred a ++ batch_preds m batches
  /\ fs w' = fs w /\ draws w' = draws w
  /\ trace w' = trace w ++ repeat (EvForward false) (length batches).
Proof.
  revert a w. induction batches as [| b rest IH]; intros a w H;
    cbn [validation_loop] in H.
  - apply ret_inr in H as [-> ->]. cbn. rewrite !app_nil_r.
    repeat split; auto.
  - inv_bind H.
    apply emit_inr in H0 as (F0 & T0 & D0).
    apply lift_inr in H1 as (E1 & ->).
    apply IH in H as (Hc & Ht & Hp & Hf & Hd & Htr).
    cbn [accumulate acc_count acc_true acc_pred] in *.
    rewrite length_permute, length_map in Hc.
    repeat split.
    + rewrite Hc. cbn [concat]. rewrite length_app.
      now rewrite Nat.add_assoc.
    + rewrite Ht. cbn [batch_labels map]. now rewrite <- app_assoc.
    + rewrite Hp. cbn [batch_preds map]. now rewrite <- app_assoc.
    + congruence.
    + congruence.
    + rewrite Htr, T0. cbn [length repeat]. now rewrite <- app_assoc.
Qed.

Lemma test_loop_eq (batches : list (list sample)) (m : Model)
  (t p : list ndarray) (w : World) :
  test_loop batches m t p w
  = (inr (t ++ batch_labels batches, p ++ batch_preds m batches),
     {| fs := fs w;
        trace := trace w ++ repeat (EvForward false) (length batches);
        draws := draws w |}).
Proof.
  revert t p w. induction batches as [| b rest IH]; intros t p w;
    cbn [test_loop].
  - unfold ret. cbn. rewrite !app_nil_r. now destruct w.
  - unfold bind at 1. cbn [emit]. rewrite IH. cbn.
    now rewrite <- !app_assoc.
Qed.

Lemma view_flat_squeeze (l : list Z) : view_flat (squeeze l) = l.
Proof. destruct l as [| z [| z' l]]; reflexivity. Qed.

Lemma concat_view_flat_labels (batches : list (list sample)) :
  concat (map view_flat (batch_labels batches))
  = map snd (concat batches).
Proof.
  unfold batch_labels.
  induction batches as [| b rest IH]; cbn [map concat]; [reflexivity |].
  now rewrite view_flat_squeeze, IH, map_app.
Qed.

End Loops.

(** * The partial last batch *)

Section PartialBatch.
Context {C : Collab}.

Lemma mkDataLoader_ok (ds : list sample) (bs : nat) (sh dl : bool) :
  ds <> [] ->
  (0 < bs)%nat ->
  mkDataLoader ds bs sh dl
  = inr {| ld_dataset := ds; ld_batch_size := bs;
           ld_shuffle := sh; ld_drop_last := dl |}.
Proof.
  intros Hds Hbs. unfold mkDataLoader.
  destruct ds as [| x ds]; [contradiction |]. cbn [length Nat.eqb].
  rewrite andb_false_r.
  destruct (Nat.eqb_spec bs 0) as [E | E]; [lia | reflexivity].
Qed.

Lemma mod_nonempty (ds : list sample) (bs : nat) :
  length ds mod bs <> 0%nat -> ds <> [].
Proof. intros H ->. apply H. cbn [length]. apply Nat.Div0.mod_0_l. Qed.

Lemma keep_batches_perm (ds : list sample) (bs k : nat) :
  Permutation
    (concat (loader_batches
               {| ld_dataset := ds; ld_batch_size := bs;
                  ld_shuffle := true; ld_drop_last := false |} k))
    ds.
Proof.
  unfold loader_batches. cbn. rewrite batch_sampler_keep. cbn.
  apply shuffle_perm.
Qed.

Lemma drop_batches_total (ds : list sample) (bs k : nat) :
  (0 < bs)%nat ->
  length (concat (loader_batches
                    {| ld_dataset := ds; ld_batch_size := bs;
                       ld_shuffle := true; ld_drop_last := true |} k))
  = (bs * (length ds / bs))%nat.
Proof.
  intros Hbs. unfold loader_batches. cbn.
  rewrite batch_sampler_drop_total by assumption.
  now rewrite (Permutation_length (shuffle_perm k ds)).
Qed.

(** C5. With positive batch sizes and a training partition whose size is
    not a multiple of the batch size, the training loader hands out the
    full batches only and its loop counts fewer samples than the partition
    has, while the validation and test loaders hand out every sample. *)
Theorem drop_last_for_training_only (args : Params) (k : nat) :
  (0 < batch_size args)%nat ->
  (0 < test_batch_size args)%nat ->
  length (dataset args TrainPart) mod batch_size args <> 0%nat ->
  length (dataset args ValidationPart) mod test_batch_size args <> 0%nat ->
  length (dataset args TestPart) mod test_batch_size args <> 0%nat ->
  partial_batch_policy args k.
Proof.
  intros Hbs Htbs Hmod Hmodv Hmodt. unfold partial_batch_policy.
  unfold train_loader, validation_loader, test_loader.
  rewrite !mkDataLoader_ok
    by (assumption || (eapply mod_nonempty; eassumption)).
  do 3 eexists. split; [reflexivity |]. split; [reflexivity |].
  split; [reflexivity |].
  fold (dataset args TrainPart). fold (dataset args ValidationPart).
  fold (dataset args TestPart).
  assert (Htot := drop_batches_total (dataset args TrainPart) k Hbs).
  repeat split.
  - unfold loader_batches. cbn. now apply batch_sampler_full.
  - exact Htot.
  - rewrite Htot.
    pose proof (Nat.div_mod_eq (length (dataset args TrainPart))
                               (batch_size args)). lia.
  - intros l a w la w' H. apply train_loop_inr in H as (Hc & _).
    now rewrite Hc, Htot.
  - apply keep_batches_perm.
  - intros m a w a' w' H. apply validation_loop_inr in H as (Hc & _).
    rewrite Hc. f_equal. apply Permutation_length, keep_batches_perm.
  - apply keep_batches_perm.
  - intros m w. rewrite test_loop_eq. do 2 eexists.
    split; [reflexivity |]. cbn [fst app].
    rewrite concat_view_flat_labels. apply Permutation_map.
    apply keep_batches_perm.
Qed.

End PartialBatch.

(** C5 at five training samples in batches of two and three validation
    and test samples in batches of two. *)
Lemma drop_last_for_training_only_witness :
  @partial_batch_policy Toy.collab
    (Toy.params "DGCNN" 1 2 2 false [1; 2; 3; 4; 5] [1; 2; 3] [1; 2; 3])%nat
    0.
Proof.
  apply (@drop_last_for_training_only Toy.collab
           (Toy.params "DGCNN" 1 2 2 false [1; 2; 3; 4; 5] [1; 2; 3]
                       [1; 2; 3])%nat 0%nat);
    cbn; lia.
Defined.

(** * Concatenating what a loop collected *)

Section Collected.
Context {C : Collab}.

Lemma squeeze_Arr1 (l : list Z) : length l <> 1%nat -> squeeze l = Arr1 l.
Proof. destruct l as [| z [| z' l]]; cbn; intros H; congruence. Qed.

Lemma concat_arrays_Arr1 (ls : list (list Z)) :
  concat_arrays (map Arr1 ls) = inr (concat ls).
Proof.
  induction ls as [| a ls IH]; cbn; [reflexivity | now rewrite IH].
Qed.

Lemma np_concatenate_Arr1 (ls : list (list Z)) :
  ls <> [] -> np_concatenate (map Arr1 ls) = inr (concat ls).
Proof.
  destruct ls as [| a ls]; [congruence |]. intros _.
  unfold np_concatenate. cbn [map]. apply (concat_arrays_Arr1 (a :: ls)).
Qed.

Lemma batch_labels_Arr1 (batches : list (list sample)) :
  Forall (fun b => length b <> 1%nat) batches ->
  batch_labels batches = map Arr1 (map (map snd) batches).
Proof.
  unfold batch_labels. induction 1 as [| b rest Hb _ IH]; cbn [map];
    [reflexivity |].
  rewrite IH, squeeze_Arr1; [reflexivity | now rewrite length_map].
Qed.

Lemma np_concatenate_labels (batches : list (list sample)) :
  batches <> [] ->
  Forall (fun b => length b <> 1%nat) batches ->
  np_concatenate (batch_labels batches) = inr (map snd (concat batches)).
Proof.
  intros Hne Hb. rewrite batch_labels_Arr1 by assumption.
  rewrite np_concatenate_Arr1 by (destruct batches; cbn; congruence).
  now rewrite concat_map.
Qed.

Lemma np_concatenate_preds (m : Model) (batches : list (list sample)) :
  batches <> [] ->
  np_concatenate (batch_preds m batches) = inr (flat_preds m batches).
Proof.
  intros Hne. unfold batch_preds, flat_preds, max_dim1.
  rewrite <- (map_map _ Arr1).
  apply np_concatenate_Arr1. destruct batches; cbn; congruence.
Qed.

Lemma length_flat_preds (m : Model) (batches : list (list sample)) :
  one_row_per_cloud ->
  length (flat_preds m batches) = length (concat batches).
Proof.
  intros Hrow. unfold flat_preds.
  induction batches as [| b rest IH]; cbn [map concat]; [reflexivity |].
  rewrite !length_app, IH, length_map, Hrow, length_permute, length_map.
  reflexivity.
Qed.

Lemma accuracy_score_ok (y_true y_pred : list Z) :
  length y_true = length y_pred -> y_true <> [] ->
  accuracy_score y_true y_pred = inr (accuracy y_true y_pred).
Proof.
  intros E Hne. unfold accuracy_score. rewrite E, Nat.eqb_refl. cbn.
  destruct y_true; congruence.
Qed.

Lemma balanced_accuracy_score_ok (y_true y_pred : list Z) :
  length y_true = length y_pred -> y_true <> [] ->
  balanced_accuracy_score y_true y_pred
  = inr (balanced_accuracy y_true y_pred).
Proof.
  intros E Hne. unfold balanced_accuracy_score. rewrite E, Nat.eqb_refl. cbn.
  destruct y_true; congruence.
Qed.

End Collected.

(** * The evaluator *)

Section Evaluator.
Context {C : Collab}.

Lemma test_run (args : Params) (state : option string) (w : World)
  (sd : StateDict) :
  (0 < test_batch_size args)%nat ->
  lookup (weights_path state) (fs w) = Some sd ->
  one_row_per_cloud ->
  dataset args TestPart <> [] ->
  forall tel, test_loader args = inr tel ->
  Forall (fun b => length b <> 1%nat) (loader_batches tel (draws w)) ->
  let m := load_state_dict (select_model args) sd in
  let batches := loader_batches tel (draws w) in
  let y_true := map snd (concat batches) in
  let y_pred := flat_preds m batches in
  test args state w
  = (inr (accuracy y_true y_pred, balanced_accuracy y_true y_pred),
     {| fs := fs w;
        trace := trace w ++ repeat (EvForward false) (length batches)
                 ++ match state with
                    | None => [EvLog (MsgTest (accuracy y_true y_pred)
                                        (balanced_accuracy y_true y_pred))]
                    | Some _ => []
                    end;
        draws := S (draws w) |})
  /\ Permutation (concat batches) (dataset args TestPart).
Proof.
  intros Htbs Hsd Hrow Hne tel Htel Hsizes m batches y_true y_pred.
  assert (Hperm : Permutation (concat batches) (dataset args TestPart)).
  { unfold test_loader in Htel. rewrite mkDataLoader_ok in Htel by assumption.
    injection Htel as <-. apply keep_batches_perm. }
  split; [| exact Hperm].
  assert (Hbne : batches <> []).
  { intros E. rewrite E in Hperm. cbn in Hperm.
    apply Permutation_nil in Hperm. contradiction. }
  assert (Hyne : y_true <> []).
  { unfold y_true. intros E. apply map_eq_nil in E.
    rewrite E in Hperm. apply Permutation_nil in Hperm. contradiction. }
  assert (Hlen : length y_true = length y_pred).
  { unfold y_true, y_pred. now rewrite length_map, length_flat_preds. }
  unfold test.
  erewrite bind_of_inr
    by (unfold lift; rewrite Htel; reflexivity).
  erewrite bind_of_inr
    by (unfold torch_load; destruct state; cbn [weights_path] in Hsd;
        rewrite Hsd; reflexivity).
  unfold bind at 1. cbn [iterate fst snd].
  unfold bind at 1. rewrite test_loop_eq. cbn [app fst snd fs trace draws].
  fold batches. fold m.
  unfold bind at 1, lift at 1. rewrite np_concatenate_labels by assumption.
  unfold bind at 1, lift at 1. rewrite np_concatenate_preds by assumption.
  fold y_true. fold y_pred.
  unfold bind at 1, lift at 1. rewrite accuracy_score_ok by assumption.
  unfold bind at 1, lift at 1.
  rewrite balanced_accuracy_score_ok by assumption.
  destruct state; cbn; now rewrite ?app_nil_r, <- ?app_assoc.
Qed.

(** C9. When the weights are on file, the test partition is not empty, the
    loader hands out no batch of a single sample and the network answers
    one row per cloud, [test] returns the pair (accuracy, balanced
    accuracy) over every sample of the test partition, with a state passed
    or without; the summary line is logged exactly when none is passed. *)
Theorem test_returns_metrics (args : Params) (state : option string)
  (w : World) (sd : StateDict) (tel : DataLoader) :
  (0 < test_batch_size args)%nat ->
  lookup (weights_path state) (fs w) = Some sd ->
  one_row_per_cloud ->
  dataset args TestPart <> [] ->
  test_loader args = inr tel ->
  Forall (fun b => length b <> 1%nat) (loader_batches tel (draws w)) ->
  evaluator_contract args state w.
Proof.
  intros Htbs Hsd Hrow Hne Htel Hsizes.
  destruct (test_run args state w Htbs Hsd Hrow Hne Htel Hsizes) as [E P].
  exists tel, sd. split; [exact Htel |]. split; [exact Hsd |].
  cbv zeta. rewrite E. cbn [fst snd trace]. auto.
Qed.

End Evaluator.

Lemma toy_one_row_per_cloud : @one_row_per_cloud Toy.collab.
Proof. intros training m data. cbn. apply length_map. Qed.

(** C9 at four test samples in batches of two, with no state passed. *)
Lemma test_returns_metrics_witness :
  @evaluator_contract Toy.collab
    (Toy.params "DGCNN" 1 2 2 false [] [] [4; 5; 6; 7])%nat None Toy.world.
Proof.
  apply (@test_returns_metrics Toy.collab
           (Toy.params "DGCNN" 1 2 2 false [] [] [4; 5; 6; 7])%nat
           None Toy.world 3%nat Toy.test_set).
  - cbn. lia.
  - reflexivity.
  - exact toy_one_row_per_cloud.
  - discriminate.
  - reflexivity.
  - cbn. repeat constructor; discriminate.
Defined.

(** * The dry run *)

Section DryRun.
Context {C : Collab}.
Variable args : Params.
Hypothesis Hdry : dry_ryn args = true.

Local Notation "'Qd'" := dry_event.
Local Notation "'ftr'" := is_train_forward.

Lemma dry_ret {A : Type} (a : A) (post : A -> Prop) (n : nat) :
  post a -> bounded Qd ftr n (ret a) post.
Proof.
  intros Ha.
  apply (@bounded_weaken _ Qd ftr A 0 n (ret a) post post);
    [now apply bounded_ret | lia | auto].
Qed.

Lemma dry_lift {A B : Type} (r : result A) (k : A -> M B) (n : nat)
  (post : B -> Prop) :
  (forall a, bounded Qd ftr n (k a) post) ->
  bounded Qd ftr n (bind (lift r) k) post.
Proof.
  intros Hk. apply (@bounded_bind _ Qd ftr A B 0 n (lift r) k
                      (fun _ => True) post); [| auto].
  apply (@bounded_weaken _ Qd ftr A 0 0 (lift r) (fun a => r = inr a)
           (fun _ => True)); [apply bounded_lift | lia | auto].
Qed.

Lemma dry_emit {B : Type} (ev : event) (k : unit -> M B) (n : nat)
  (post : B -> Prop) :
  Qd ev -> ftr ev = false ->
  bounded Qd ftr n (k tt) post ->
  bounded Qd ftr n (bind (emit ev) k) post.
Proof.
  intros Hev Hf Hk.
  apply (@bounded_bind _ Qd ftr unit B 0 n (emit ev) k
           (fun _ => True) post).
  - generalize (bounded_emit Qd ftr ev Hev). now rewrite Hf.
  - intros [] _. exact Hk.
Qed.




Lemma setup_dry :
  bounded Qd ftr 0 (setup args) (fun _ => True).
Proof.
  unfold setup. apply dry_lift; intros tl. apply dry_lift; intros vl.
  do 2 (apply dry_emit; [exact I | reflexivity |]).
  apply (@bounded_bind _ Qd ftr _ _ 0 0 _ _
           (fun _ => True) (fun _ => True)).
  - destruct (String.eqb (optimizer args) "SGD");
      (apply dry_emit; [exact I | reflexivity | now apply dry_ret]).
  - intros o _.
    apply (@bounded_bind _ Qd ftr _ _ 0 0 _ _
             (fun _ => True) (fun _ => True)).
    + destruct (negb (String.eqb (last_checkpoint args) "")).
      * apply (@bounded_bind _ Qd ftr _ _ 0 0 _ _
                 (fun _ => True) (fun _ => True));
          [apply bounded_torch_load | intros sd _; now apply dry_ret].
      * now apply dry_ret.
    + intros m _. now apply dry_ret.
Qed.


End DryRun.

Section DryRunExact.
Context {C : Collab}.




Variable args : Params.
Hypothesis Hdry : dry_ryn args = true.




Lemma setup_run (w : World) :
  setup_ok args w ->
  exists tl vl l w1 sev,
    train_loader args = inr tl
    /\ setup args w = (inr (tl, vl, l), w1)
    /\ draws w1 = draws w
    /\ trace w1 = trace w ++ sev.
Proof.
  intros (Htr & Hva & Hbs & Htbs & Hck). unfold dataset in Htr, Hva.
  unfold setup, train_loader, validation_loader.
  rewrite !mkDataLoader_ok by assumption.
  do 2 (erewrite bind_of_inr by reflexivity).
  do 2 (erewrite bind_of_inr by reflexivity).
  destruct (String.eqb (optimizer args) "SGD").
  - erewrite bind_of_inr by reflexivity.
    destruct Hck as [Hck | (sd & Hck)].
    + rewrite Hck. cbn [String.eqb negb].
      do 5 eexists. split; [reflexivity |]. split; [reflexivity |].
      cbn. split; [reflexivity |]. rewrite <- !app_assoc. reflexivity.
    + destruct (negb (String.eqb (last_checkpoint args) "")).
      * erewrite bind_of_inr
          by (unfold bind, torch_load; cbn; rewrite Hck; reflexivity).
        do 5 eexists. split; [reflexivity |]. split; [reflexivity |].
        cbn. split; [reflexivity |]. rewrite <- !app_assoc. reflexivity.
      * do 5 eexists. split; [reflexivity |]. split; [reflexivity |].
        cbn. split; [reflexivity |]. rewrite <- !app_assoc. reflexivity.
  - erewrite bind_of_inr by reflexivity.
    destruct Hck as [Hck | (sd & Hck)].
    + rewrite Hck. cbn [String.eqb negb].
      do 5 eexists. split; [reflexivity |]. split; [reflexivity |].
      cbn. split; [reflexivity |]. rewrite <- !app_assoc. reflexivity.
    + destruct (negb (String.eqb (last_checkpoint args) "")).
      * erewrite bind_of_inr
          by (unfold bind, torch_load; cbn; rewrite Hck; reflexivity).
        do 5 eexists. split; [reflexivity |]. split; [reflexivity |].
        cbn. split; [reflexivity |]. rewrite <- !app_assoc. reflexivity.
      * do 5 eexists. split; [reflexivity |]. split; [reflexivity |].
        cbn. split; [reflexivity |]. rewrite <- !app_assoc. reflexivity.
Qed.

End DryRunExact.





(** * The validation block *)

Section Validation.
Context {C : Collab}.

Lemma concat_arrays_inr (l : list ndarray) (r : list Z) :
  concat_arrays l = inr r -> r = concat (map view_flat l).
Proof.
  revert r. induction l as [| a l IH]; intros r; cbn [concat_arrays].
  - intros E. now injection E as <-.
  - destruct a as [z | a]; [discriminate |].
    destruct (concat_arrays l) as [e | r']; cbn; [discriminate |].
    intros E. injection E as <-. now rewrite (IH r' eq_refl).
Qed.

Lemma np_concatenate_inr (l : list ndarray) (r : list Z) :
  np_concatenate l = inr r -> r = concat (map view_flat l).
Proof.
  destruct l as [| a l]; [discriminate |]. apply concat_arrays_inr.
Qed.

Lemma concat_view_flat_preds (m : Model) (batches : list (list sample)) :
  concat (map view_flat (batch_preds m batches)) = flat_preds m batches.
Proof.
  unfold batch_preds, flat_preds, max_dim1. now rewrite map_map.
Qed.

Lemma accuracy_score_inr (t p : list Z) (v : Q) :
  accuracy_score t p = inr v -> v = accuracy t p.
Proof.
  unfold accuracy_score. destruct (negb _); [discriminate |].
  destruct t; [discriminate |]. intros E. now injection E.
Qed.

Lemma balanced_accuracy_score_inr (t p : list Z) (v : Q) :
  balanced_accuracy_score t p = inr v -> v = balanced_accuracy t p.
Proof.
  unfold balanced_accuracy_score. destruct (negb _); [discriminate |].
  destruct t; [discriminate |]. intros E. now injection E.
Qed.

Lemma torch_save_inr (s : slot) (path : string) (sd : StateDict)
  (w w' : World) (u : unit) :
  torch_save s path sd w = (inr u, w') ->
  fs w' = (path, sd) :: fs w
  /\ trace w' = trace w ++ [EvSave s path sd]
  /\ draws w' = draws w.
Proof. unfold torch_save. intros E. injection E as _ <-. cbn. auto. Qed.

Lemma validate_inr (args : Params) (vl : DataLoader) (epoch : nat)
  (m : Model) (tr : tval * list Z * list Z) (best best' : BestState)
  (w w' : World) :
  validate args vl epoch m tr best w = (inr best', w') ->
  let val_acc := validation_acc vl m (draws w) in
  let avg := validation_avg_acc vl m (draws w) in
  let better := Qgtb avg (global_best_avg_acc best) in
  exists val_loss row,
    row_epoch row = epoch
    /\ row_val_loss row = val_loss
    /\ row_val_acc row = val_acc
    /\ row_val_avg_acc row = avg
    /\ trace w'
       = trace w
         ++ (EvValidation
             :: repeat (EvForward false)
                       (length (loader_batches vl (draws w))))
         ++ [EvCsv row; EvSave Latest (checkpoint_path args) (state_dict m)]
         ++ (if better then [EvSave Best best_model_path (state_dict m)]
             else [])
    /\ best' = (if better
                then {| global_best_loss := val_loss;
                        global_best_acc := val_acc;
                        global_best_avg_acc := avg |}
                else best)
    /\ fs w' = (if better then [(best_model_path, state_dict m)] else [])
               ++ (checkpoint_path args, state_dict m) :: fs w
    /\ draws w' = S (draws w).
Proof.
  intros H val_acc avg better. unfold validate in H.
  destruct tr as [[train_loss train_true] train_pred].
  inv_bind H.
  apply emit_inr in H0 as (F0 & T0 & D0).
  unfold iterate in H1. injection H1 as <- <-.
  apply validation_loop_inr in H2 as (_ & Ht & Hp & F2 & D2 & T2).
  cbn [Accum0 acc_true acc_pred app fs trace draws] in *.
  apply lift_inr in H3 as (E3 & ->). apply lift_inr in H4 as (E4 & ->).
  apply lift_inr in H5 as (E5 & ->). apply lift_inr in H6 as (E6 & ->).
  apply lift_inr in H7 as (E7 & ->). apply lift_inr in H8 as (E8 & ->).
  apply lift_inr in H9 as (E9 & ->).
  apply emit_inr in H10 as (F10 & T10 & D10).
  apply torch_save_inr in H11 as (F11 & T11 & D11).
  rewrite Ht in E3. rewrite Hp in E4.
  apply np_concatenate_inr in E3. apply np_concatenate_inr in E4.
  rewrite concat_view_flat_labels in E3.
  rewrite concat_view_flat_preds in E4. subst a2 a3.
  apply accuracy_score_inr in E5. apply balanced_accuracy_score_inr in E6.
  rewrite D0 in *.
  fold (validation_acc vl m (draws w)) in E5. fold val_acc in E5.
  fold (validation_avg_acc vl m (draws w)) in E6. fold avg in E6.
  subst a4 a5. fold better in H.
  exists a8,
    {| row_epoch := epoch; row_train_loss := train_loss;
       row_train_acc := a6; row_train_avg_acc := a7;
       row_val_loss := a8; row_val_acc := val_acc;
       row_val_avg_acc := avg |}.
  split; [reflexivity |]. split; [reflexivity |].
  split; [reflexivity |]. split; [reflexivity |].
  destruct better.
  - inv_bind H. apply torch_save_inr in H0 as (F12 & T12 & D12).
    apply ret_inr in H as (-> & ->).
    repeat split.
    + rewrite T12, T11, T10, T2, T0. cbn. now rewrite <- !app_assoc.
    + rewrite F12, F11, F10, F2, F0. reflexivity.
    + congruence.
  - apply ret_inr in H as (-> & ->).
    repeat split.
    + rewrite T11, T10, T2, T0. cbn. now rewrite <- !app_assoc.
    + rewrite F11, F10, F2, F0. reflexivity.
    + congruence.
Qed.

End Validation.

(** * Checkpoints and the best state across epochs *)

Section Epochs.
Context {C : Collab}.

Lemma returns_inr {A : Type} (m : M A) (w : World) :
  returns (fst (m w)) -> exists a w', m w = (inr a, w').
Proof.
  destruct (m w) as [[e | a] w'] eqn:E; cbn; [contradiction |].
  intros _. now exists a, w'.
Qed.

Lemma Qgtb_lt (a b : Q) : Qgtb a b = true <-> (b < a)%Q.
Proof.
  unfold Qgtb. rewrite negb_true_iff. split.
  - intros H. apply Qnot_le_lt. intros Hle.
    apply Qle_bool_iff in Hle. congruence.
  - intros H. destruct (Qle_bool a b) eqn:E; [| reflexivity].
    apply Qle_bool_iff in E. exfalso. now apply (Qlt_not_le b a).
Qed.

Lemma count_repeat (f : event -> bool) (ev : event) (n : nat) :
  f ev = false -> count f (repeat ev n) = 0%nat.
Proof.
  intros Hf. unfold count. induction n as [| n IH]; cbn; [reflexivity |].
  now rewrite Hf.
Qed.

Lemma count_train_steps (f : event -> bool) (r : R)
  (batches : list (list sample)) :
  f (EvForward true) = false -> f (EvOptStep r) = false ->
  count f (flat_map (fun _ => [EvForward true; EvOptStep r]) batches)
  = 0%nat.
Proof.
  intros H1 H2. unfold count.
  induction batches as [| b rest IH]; cbn; [reflexivity |].
  now rewrite H1, H2.
Qed.

Lemma count_dry_events (s : slot) (evs : list event) :
  Forall dry_event evs -> count (is_save s) evs = 0%nat.
Proof.
  unfold count. induction 1 as [| ev evs Hev _ IH]; [reflexivity |].
  destruct ev as [| | [] | | | | |], s; cbn in *; try contradiction; auto.
Qed.

Lemma train_batch_inr (args : Params) (tl : DataLoader) (l : Learner)
  (w w' : World) (lr : Learner * (tval * list Z * list Z)) :
  dry_ryn args = false ->
  train_batch args tl l w = (inr lr, w') ->
  exists evs,
    trace w' = trace w ++ evs
    /\ count is_any_save evs = 0%nat
    /\ (forall s, count (is_save s) evs = 0%nat).
Proof.
  intros Hdry H. unfold train_batch in H. rewrite Hdry in H. inv_bind H.
  unfold iterate in H0. injection H0 as <- <-.
  destruct a0 as [l' a']. apply train_loop_inr in H1 as (_ & _ & _ & _ & _ & _ & _ & T).
  apply lift_inr in H2 as (_ & ->). apply ret_inr in H as (_ & ->).
  cbn [trace] in T. eexists. split; [exact T |].
  split; [now apply count_train_steps |].
  intros s. apply count_train_steps; now destruct s.
Qed.

Lemma validate_counts (args : Params) (vl : DataLoader) (epoch : nat)
  (m : Model) (tr : tval * list Z * list Z) (best best' : BestState)
  (w w' : World) :
  validate args vl epoch m tr best w = (inr best', w') ->
  exists evs,
    trace w' = trace w ++ evs
    /\ In (EvSave Latest (checkpoint_path args) (state_dict m)) evs
    /\ count (is_save Latest) evs = 1%nat
    /\ count (is_save Best) evs
       = (if Qgtb (validation_avg_acc vl m (draws w))
                  (global_best_avg_acc best) then 1 else 0)%nat
    /\ (In (EvSave Best best_model_path (state_dict m)) evs
        <-> Qgtb (validation_avg_acc vl m (draws w))
                 (global_best_avg_acc best) = true).
Proof.
  intros H. apply validate_inr in H.
  destruct H as (val_loss & row & _ & _ & _ & _ & T & _).
  eexists. split; [exact T |].
  assert (Hrep : forall s n, count (is_save s)
                               (EvValidation :: repeat (EvForward false) n)
                             = 0%nat).
  { intros s n. change (EvValidation :: repeat (EvForward false) n)
      with ([EvValidation] ++ repeat (EvForward false) n).
    rewrite count_app, count_repeat by now destruct s.
    now destruct s. }
  repeat split.
  - apply in_or_app. right. cbn. auto.
  - rewrite !count_app, Hrep. destruct (Qgtb _ _); reflexivity.
  - rewrite !count_app, Hrep. destruct (Qgtb _ _); reflexivity.
  - intros Hin. apply in_app_or in Hin as [Hin | Hin].
    + exfalso. destruct Hin as [Hin | Hin]; [discriminate |].
      apply repeat_spec in Hin. discriminate.
    + destruct (Qgtb _ _); [reflexivity |].
      cbn in Hin. destruct Hin as [Hin | [Hin | []]]; discriminate.
  - intros Hb. rewrite Hb. apply in_or_app. right. cbn. auto.
Qed.

Lemma epoch_loop_latest (args : Params) (tl vl : DataLoader)
  (todo : list nat) (l : Learner) (best : BestState) (w w' : World)
  (lb : Learner * BestState) :
  dry_ryn args = false ->
  epoch_loop args tl vl todo l best w = (inr lb, w') ->
  exists evs,
    trace w' = trace w ++ evs
    /\ count (is_save Latest) evs = length todo.
Proof.
  intros Hdry. revert l best w.
  induction todo as [| epoch todo IH]; intros l best w H;
    cbn [epoch_loop] in H.
  - apply ret_inr in H as (_ & ->). exists []. now rewrite app_nil_r.
  - inv_bind H. rewrite Hdry in H. inv_bind H.
    eapply train_batch_inr in H0; [| exact Hdry].
    destruct H0 as (e1 & T1 & _ & S1).
    apply validate_counts in H1 as (e2 & T2 & _ & S2 & _).
    apply IH in H as (e3 & T3 & S3).
    exists (e1 ++ e2 ++ e3). split.
    + rewrite T3, T2, T1. now rewrite <- !app_assoc.
    + rewrite !count_app, S1, S2, S3. reflexivity.
Qed.

Lemma train_latest (args : Params) (w : World) :
  dry_ryn args = false ->
  returns (fst (train args w)) ->
  exists evs,
    trace (snd (train args w)) = trace w ++ evs
    /\ count (is_save Latest) evs = epochs args.
Proof.
  intros Hdry Hret. apply returns_inr in Hret as ([] & w' & H).
  rewrite H. cbn [snd]. unfold train in H. inv_bind H.
  destruct a as [[tl vl] l]. inv_bind H.
  destruct (setup_dry args w) as (e1 & T1 & Q1 & _). rewrite H0 in T1.
  cbn [snd] in T1.
  eapply epoch_loop_latest in H1; [| exact Hdry].
  destruct H1 as (e2 & T2 & S2).
  apply emit_inr in H as (_ & T3 & _).
  exists (e1 ++ e2 ++ [EvSummary (snd a)]). split.
  - rewrite T3, T2, T1. now rewrite <- !app_assoc.
  - rewrite !count_app, (count_dry_events Latest Q1), S2, length_seq.
    cbn. lia.
Qed.

End Epochs.

Section Claims.
Context {C : Collab}.

Lemma lookup_saved (args : Params) (m : Model) (better : bool)
  (files : list (string * StateDict)) :
  lookup (checkpoint_path args)
         ((if better then [(best_model_path, state_dict m)] else [])
          ++ (checkpoint_path args, state_dict m) :: files)
  = Some (state_dict m).
Proof.
  destruct better; cbn [app lookup].
  - destruct (same_file best_model_path (checkpoint_path args));
      [reflexivity | now rewrite same_file_refl].
  - now rewrite same_file_refl.
Qed.

End Claims.

(** The run the specification proposes as a test: validation balanced
    accuracies 1/2, 1/2, 3/5 over three epochs; the checkpoint is written
    in every epoch and the best slot in the first and the third only. *)
Example three_epochs_best_slot :
  reported_avg_accs (trace (snd (@train Toy.collab ToyRun.args World0)))
  = [1 # 2; 1 # 2; 3 # 5]
  /\ saved_slots (trace (snd (@train Toy.collab ToyRun.args World0)))
     = [Latest; Best; Latest; Latest; Best]
  /\ fst (@train Toy.collab ToyRun.args World0) = inr tt.
Proof. vm_compute. repeat split. Qed.

(** * The result of a pass *)

Section Passes.
Context {C : Collab}.

Lemma Rsign_1 : Rsign 1 = Gt.
Proof.
  unfold Rsign. destruct (total_order_T 1 0) as [[H | H] | H];
    try reflexivity; exfalso; lra.
Qed.

Lemma tmul_1_r (x : tval) : tmul x (Fin 1) = x.
Proof.
  destruct x; cbn; rewrite ?Rsign_1; try reflexivity.
  f_equal. ring.
Qed.

Lemma fold_tadd_app (l1 l2 : list tval) (a : tval) :
  fold_left tadd (l1 ++ l2) a = fold_left tadd l2 (fold_left tadd l1 a).
Proof. apply fold_left_app. Qed.

(** The accumulators of the validation loop on batches whose losses are
    [losses]. *)
Lemma validation_loop_ok (m : Model) (batches : list (list sample))
  (losses : list tval) (a : Accum) (w : World) :
  Forall2 (fun b loss => validation_loss m b = inr loss) batches losses ->
  exists a' w',
    validation_loop batches m a w = (inr a', w')
    /\ acc_loss a'
       = fold_left tadd
           (map (fun p => tscale (fst p) (Z.of_nat (snd p)))
                (combine losses (map (@length sample) batches)))
           (acc_loss a)
    /\ acc_count a'
       = (acc_count a + list_sum (map (@length sample) batches))%nat.
Proof.
  intros HF. revert a w.
  induction HF as [| b loss batches losses Hb _ IH]; intros a w.
  - exists a, w. cbn. repeat split; auto.
  - cbn [validation_loop]. unfold bind at 1. cbn [emit].
    unfold bind at 1, lift at 1. unfold validation_loss in Hb. rewrite Hb.
    destruct (IH (accumulate a loss
                    (length (permute_0_2_1 (map fst b)))
                    (squeeze (map snd b))
                    (max_dim1 (forward false m (permute_0_2_1 (map fst b)))))
                 {| fs := fs w; trace := trace w ++ [EvForward false];
                    draws := draws w |})
      as (a' & w' & E & L & Cn).
    exists a', w'. split; [exact E |].
    cbn [accumulate acc_loss acc_count] in L, Cn.
    rewrite length_permute, length_map in L, Cn.
    split; [rewrite L; reflexivity |].
    rewrite Cn. cbn [map list_sum]. symmetry. apply Nat.add_assoc.
Qed.

(** The accumulators of the training loop, when every loss is computed. *)
Lemma train_loop_ok (batches : list (list sample)) (losses : list tval)
  (l : Learner) (a : Accum) (w : World) :
  map fst (train_losses batches l) = map inr losses ->
  exists la w',
    train_loop false batches l a w = (inr la, w')
    /\ acc_loss (snd la)
       = fold_left tadd
           (map (fun p => tscale (fst p) (Z.of_nat (snd p)))
                (combine losses (map (@length sample) batches)))
           (acc_loss a)
    /\ acc_count (snd la)
       = (acc_count a + list_sum (map (@length sample) batches))%nat
    /\ acc_true (snd la) = acc_true a ++ batch_labels batches
    /\ acc_pred (snd la) = acc_pred a ++ map Arr1 (train_preds batches l).
Proof.
  revert losses l a w.
  induction batches as [| b rest IH]; intros losses l a w HL.
  - exists (l, a), w. destruct losses; [| discriminate].
    cbn. rewrite !app_nil_r. repeat split; auto.
  - cbn [train_losses train_preds] in *. cbn [train_loop].
    destruct (optim_step (opt l) (opt_lr l) (net l)
                (permute_0_2_1 (map fst b)) (squeeze (map snd b)))
      as [net' opt'] eqn:Eo.
    destruct losses as [| loss losses]; [discriminate |].
    cbn [map fst] in HL. injection HL as Hloss Hrest.
    unfold bind at 1. cbn [emit].
    unfold bind at 1, lift at 1. rewrite Hloss.
    unfold bind at 1. cbn [emit].
    destruct (IH losses _
                (accumulate a loss (length (permute_0_2_1 (map fst b)))
                   (squeeze (map snd b))
                   (max_dim1 (forward true (net l)
                                (permute_0_2_1 (map fst b)))))
                {| fs := fs w;
                   trace := (trace w ++ [EvForward true])
                            ++ [EvOptStep (opt_lr l)];
                   draws := draws w |} Hrest)
      as (la & w' & E & L & Cn & Tr & Pr).
    exists la, w'. split; [exact E |].
    cbn [accumulate acc_loss acc_count acc_true acc_pred] in L, Cn, Tr, Pr.
    rewrite length_permute, length_map in L, Cn.
    split; [rewrite L; reflexivity |].
    split; [rewrite Cn; cbn [map list_sum]; symmetry; apply Nat.add_assoc |].
    split.
    + rewrite Tr. cbn [batch_labels map]. now rewrite <- app_assoc.
    + rewrite Pr. cbn [map]. now rewrite <- app_assoc.
Qed.

End Passes.

Section PassResult.
Context {C : Collab}.

Lemma length_train_losses (batches : list (list sample)) (l : Learner) :
  length (train_losses batches l) = length batches.
Proof.
  revert l. induction batches as [| b rest IH]; intros l;
    cbn [train_losses]; [reflexivity |].
  destruct (optim_step _ _ _ _ _). cbn [length]. now rewrite IH.
Qed.

Lemma length_train_preds (batches : list (list sample)) (l : Learner) :
  length (train_preds batches l) = length batches.
Proof.
  revert l. induction batches as [| b rest IH]; intros l;
    cbn [train_preds]; [reflexivity |].
  destruct (optim_step _ _ _ _ _). cbn [length]. now rewrite IH.
Qed.

Lemma map_snd_combine {A B : Type} (l : list A) (m : list B) :
  length l = length m -> map snd (combine l m) = m.
Proof.
  revert m. induction l as [| a l IH]; intros [| b m] E; cbn in *;
    try discriminate; [reflexivity |].
  f_equal. apply IH. now injection E.
Qed.

Lemma list_sum_sizes_pos (batches : list (list sample)) :
  batches <> [] -> Forall (fun b => (2 <= length b)%nat) batches ->
  (0 < list_sum (map (@length sample) batches))%nat.
Proof.
  intros Hne HF. destruct HF as [| b rest Hb _]; [congruence |].
  cbn [map list_sum]. apply Nat.lt_lt_add_r. apply Nat.lt_le_trans with 2%nat;
    [repeat constructor | exact Hb].
Qed.

Lemma sizes_not_one (batches : list (list sample)) :
  Forall (fun b => (2 <= length b)%nat) batches ->
  Forall (fun b => length b <> 1%nat) batches.
Proof.
  apply Forall_impl. intros b Hb E. rewrite E in Hb.
  apply (Nat.lt_irrefl 1). exact Hb.
Qed.

(** The result of a pass from its accumulators. *)
Lemma finish_ok (a : Accum) (batches : list (list sample))
  (preds : list (list Z)) :
  batches <> [] ->
  Forall (fun b => (2 <= length b)%nat) batches ->
  acc_true a = batch_labels batches ->
  acc_pred a = map Arr1 preds ->
  length preds = length batches ->
  acc_count a = list_sum (map (@length sample) batches) ->
  finish a
  = inr (tdivz (acc_loss a) (Z.of_nat (acc_count a)),
         map snd (concat batches), concat preds).
Proof.
  intros Hne Hsz Ht Hp Hlen Hc. unfold finish.
  rewrite Ht, np_concatenate_labels by (auto using sizes_not_one).
  cbn [rbind]. rewrite Hp, np_concatenate_Arr1
    by (destruct preds, batches; cbn in *; congruence).
  cbn [rbind]. unfold py_div. rewrite tmul_1_r.
  pose proof (list_sum_sizes_pos Hne Hsz) as Hpos. rewrite <- Hc in Hpos.
  destruct (Z.eqb_spec (Z.of_nat (acc_count a)) 0) as [E | E]; [| reflexivity].
  exfalso. apply (Nat.lt_irrefl 0).
  replace 0%nat with (acc_count a) at 2; [exact Hpos |].
  now apply Nat2Z.inj.
Qed.

(** Off the single-sample batch, C4 holds of the training pass: when every
    batch has at least two samples and every loss is computed,
    [train_batch] returns the size-weighted mean of the losses and the
    labels and predictions of the batches, in batch order. *)
Lemma train_batch_result (args : Params) (tl : DataLoader) (l : Learner)
  (w : World) (losses : list tval) :
  let l1 := {| net := net l; opt := opt l;
               opt_lr := get_lr (scheduler_step (scheduler l));
               scheduler := scheduler_step (scheduler l) |} in
  let batches := loader_batches tl (draws w) in
  dry_ryn args = false ->
  batches <> [] ->
  Forall (fun b => (2 <= length b)%nat) batches ->
  map fst (train_losses batches l1) = map inr losses ->
  exists l' w',
    train_batch args tl l w
    = (inr (l', (weighted_mean (combine losses (map (@length sample) batches)),
                 map snd (concat batches),
                 concat (train_preds batches l1))), w').
Proof.
  intros l1 batches Hdry Hne Hsz HL. unfold train_batch. rewrite Hdry.
  unfold bind at 1. cbn [iterate]. fold batches. fold l1.
  destruct (train_loop_ok batches losses l1 Accum0
              {| fs := fs w; trace := trace w; draws := S (draws w) |} HL)
    as ([l' a] & w' & E & L & Cn & Tr & Pr).
  unfold bind at 1. rewrite E. cbn [fst snd] in *.
  unfold bind at 1, lift at 1.
  cbn [Accum0 acc_loss acc_count acc_true acc_pred app] in L, Cn, Tr, Pr.
  assert (Hlen : length losses = length batches).
  { apply (f_equal (@length _)) in HL.
    now rewrite !length_map, length_train_losses in HL. }
  rewrite (@finish_ok a batches (train_preds batches l1))
    by (auto using length_train_preds).
  exists l', w'. unfold ret, weighted_mean.
  rewrite map_snd_combine by now rewrite length_map.
  rewrite L, Cn. reflexivity.
Qed.

End PassResult.

(** C4 fails on a batch of one sample.  A validation pass over batches of
    two samples and of one sample runs the network on both and then raises
    [ValueError] where it concatenates the labels, and so does a training
    pass over batches of one sample: [label.squeeze()] turns the labels of
    a single-sample batch into a zero-dimensional array, which
    [np.concatenate] refuses.  No loss and no label sequence is
    returned. *)
Theorem single_sample_batch_raises :
  map (@length sample)
      (@loader_batches Toy.collab ToyOdd.validation_set 1) = [2; 1]%nat
  /\ fst (@validate Toy.collab ToyOdd.args ToyOdd.validation_set 0 1%nat
            (Fin 0, [0; 0]%Z, [0; 0]%Z) BestState0 World0)
     = inl ValueError
  /\ count is_validation
       (trace (snd (@validate Toy.collab ToyOdd.args ToyOdd.validation_set 0
                      1%nat (Fin 0, [0; 0]%Z, [0; 0]%Z) BestState0 World0)))
     = 3%nat
  /\ fst (@train Toy.collab ToyOdd.args World0) = inl ValueError
  /\ fst (@train Toy.collab ToyOdd.args_one World0) = inl ValueError
  /\ count is_train_forward
       (trace (snd (@train Toy.collab ToyOdd.args_one World0))) = 2%nat
  /\ count is_validation
       (trace (snd (@train Toy.collab ToyOdd.args_one World0))) = 0%nat.
Proof. vm_compute. repeat split. Qed.

(** * More on the loss *)

Lemma fold_tadd_Fin (l : list R) (a : R) :
  fold_left tadd (map Fin l) (Fin a) = Fin (a + Rsum l).
Proof.
  revert a. induction l as [| x l IH]; intros a; unfold Rsum; cbn.
  - f_equal. lra.
  - rewrite IH. unfold Rsum. f_equal. lra.
Qed.

Lemma tsum_Fin (l : list R) : tsum (map Fin l) = Fin (Rsum l).
Proof. unfold tsum. rewrite fold_tadd_Fin. f_equal. lra. Qed.

Lemma soft_target_reals (n : nat) (g : Z) :
  soft_target n g = map Fin (soft_reals n g 0 n).
Proof.
  unfold soft_target, soft_reals. rewrite map_map. apply map_ext.
  intros j. now destruct (Z.of_nat j =? g)%Z.
Qed.

Lemma Rsum_soft_out (n : nat) (g : Z) (k len : nat) :
  (g < Z.of_nat k)%Z ->
  Rsum (soft_reals n g k len) = (INR len * (eps / (INR n - 1)))%R.
Proof.
  revert k. induction len as [| len IH]; intros k Hk.
  - unfold Rsum. cbn. lra.
  - unfold soft_reals. cbn [seq map]. unfold Rsum. cbn [fold_right].
    destruct (Z.eqb_spec (Z.of_nat k) g) as [E | E]; [lia |].
    fold (soft_reals n g (S k) len). fold (Rsum (soft_reals n g (S k) len)).
    rewrite IH by lia. rewrite S_INR. lra.
Qed.

Lemma Rsum_soft_in (n : nat) (g : Z) (k len : nat) :
  (Z.of_nat k <= g < Z.of_nat (k + len))%Z ->
  Rsum (soft_reals n g k len)
  = ((1 - eps) + (INR len - 1) * (eps / (INR n - 1)))%R.
Proof.
  revert k. induction len as [| len IH]; intros k Hk; [lia |].
  unfold soft_reals. cbn [seq map]. unfold Rsum. cbn [fold_right].
  fold (soft_reals n g (S k) len). fold (Rsum (soft_reals n g (S k) len)).
  rewrite S_INR.
  destruct (Z.eqb_spec (Z.of_nat k) g) as [E | E].
  - rewrite Rsum_soft_out by lia. lra.
  - rewrite IH by lia. lra.
Qed.

Lemma Rsum_soft_one (n : nat) (g : Z) :
  (2 <= n)%nat -> (0 <= g < Z.of_nat n)%Z ->
  Rsum (soft_reals n g 0 n) = 1%R.
Proof.
  intros Hn Hg. rewrite Rsum_soft_in by (cbn; lia).
  assert (2 <= INR n)%R by (change 2%R with (INR 2); now apply le_INR).
  field. lra.
Qed.

Lemma eps_bounds : (0 < eps < 1)%R.
Proof. unfold eps. lra. Qed.

Lemma soft_reals_positive (n : nat) (g : Z) (k len : nat) :
  (2 <= n)%nat ->
  Forall (fun r => 0 < r < 1)%R (soft_reals n g k len).
Proof.
  intros Hn. unfold soft_reals. apply Forall_map, Forall_forall.
  intros j _. pose proof eps_bounds as He.
  assert (H2 : (2 <= INR n)%R)
    by (change 2%R with (INR 2); now apply le_INR).
  destruct (Z.of_nat j =? g)%Z; [lra |].
  assert (Hd : (0 < INR n - 1)%R) by lra.
  split.
  - apply Rdiv_lt_0_compat; lra.
  - apply Rmult_lt_reg_r with (INR n - 1)%R; [exact Hd |].
    unfold Rdiv. rewrite Rmult_assoc, Rinv_l by lra. lra.
Qed.

(** The rows lines 47-48 build are the soft targets of the gold labels. *)
Lemma smoothed_targets_rows (pred : tensor2) (gold : ndarray) :
  well_shaped pred ->
  (2 <= size1 pred)%nat ->
  length (view_flat gold) = size0 pred ->
  Forall (fun g => (0 <= g < Z.of_nat (size1 pred))%Z) (view_flat gold) ->
  smoothed_targets pred gold
  = inr (Tensor2 (size1 pred)
                 (map (soft_target (size1 pred)) (view_flat gold))).
Proof.
  intros Hshape Hn Hlen Hgold.
  unfold smoothed_targets, scatter1, zeros_like. cbn [rows size1].
  rewrite scatter_rows_zeros by assumption. cbn [rbind]. f_equal.
  rewrite smooth_tensor. unfold tmap. cbn [rows size1]. f_equal.
  unfold well_shaped, size0 in *.
  revert Hshape Hlen Hgold. generalize (rows pred) as rs.
  generalize (view_flat gold) as index.
  induction index as [| g index IH]; intros [| r rs] Hr E Hg;
    cbn in *; try discriminate; [reflexivity |].
  inversion Hr; inversion Hg; subst.
  rewrite smooth_row by (try assumption; reflexivity).
  f_equal. apply IH; try assumption. now injection E.
Qed.

(** The smoothed loss is what [calculate_loss] returns from its soft
    targets. *)
Lemma calculate_loss_of_targets (pred : tensor2) (gold : ndarray) :
  calculate_loss pred gold true
  = rbind (smoothed_targets pred gold) (fun t =>
      inr (tneg (tmean (sum_dim1 (tmap2 tmul t (log_softmax pred)))))).
Proof.
  unfold calculate_loss, smoothed_targets.
  destruct (scatter1 (zeros_like pred) (view_flat gold) (Fin 1));
    reflexivity.
Qed.

(** X1. With at least two classes and a valid gold label per row, the soft
    targets that [calculate_loss] multiplies with the log-probabilities
    form, row by row, a probability distribution: every entry lies
    strictly between 0 and 1 and each row sums to 1. *)
Theorem smoothed_targets_are_distributions (pred : tensor2)
  (gold : ndarray) :
  well_shaped pred ->
  (2 <= size1 pred)%nat ->
  length (view_flat gold) = size0 pred ->
  Forall (fun g => (0 <= g < Z.of_nat (size1 pred))%Z) (view_flat gold) ->
  exists t,
    smoothed_targets pred gold = inr t
    /\ calculate_loss pred gold true
       = inr (tneg (tmean (sum_dim1 (tmap2 tmul t (log_softmax pred)))))
    /\ length (rows t) = size0 pred
    /\ Forall (fun row =>
                 length row = size1 pred
                 /\ tsum row = Fin 1
                 /\ Forall (fun x => exists r, x = Fin r /\ (0 < r < 1)%R)
                           row)
              (rows t).
Proof.
  intros Hshape Hn Hlen Hgold.
  pose proof (smoothed_targets_rows gold Hshape Hn Hlen Hgold) as E.
  eexists. split; [exact E |].
  split; [rewrite calculate_loss_of_targets, E; reflexivity |].
  cbn [rows]. split; [now rewrite length_map |].
  apply Forall_map. revert Hgold. apply Forall_impl. intros g Hg.
  rewrite soft_target_reals. repeat split.
  - unfold soft_reals. now rewrite !length_map, length_seq.
  - rewrite tsum_Fin. f_equal. now apply Rsum_soft_one.
  - apply Forall_map.
    generalize (@soft_reals_positive (size1 pred) g 0 (size1 pred) Hn).
    apply Forall_impl. intros r Hr. now exists r.
Qed.

(** The soft targets of two samples over three classes. *)
Lemma smoothed_targets_are_distributions_witness :
  exists t,
    smoothed_targets
      (Tensor2 3 [[Fin 0; Fin 1; Fin 2]; [Fin 2; Fin 0; Fin 0]])
      (Arr1 [2; 0]%Z) = inr t
    /\ calculate_loss
         (Tensor2 3 [[Fin 0; Fin 1; Fin 2]; [Fin 2; Fin 0; Fin 0]])
         (Arr1 [2; 0]%Z) true
       = inr (tneg (tmean (sum_dim1
                (tmap2 tmul t
                   (log_softmax
                      (Tensor2 3 [[Fin 0; Fin 1; Fin 2];
                                  [Fin 2; Fin 0; Fin 0]]))))))
    /\ length (rows t)
       = size0 (Tensor2 3 [[Fin 0; Fin 1; Fin 2]; [Fin 2; Fin 0; Fin 0]])
    /\ Forall (fun row =>
                 length row = 3%nat
                 /\ tsum row = Fin 1
                 /\ Forall (fun x => exists r, x = Fin r /\ (0 < r < 1)%R)
                           row)
              (rows t).
Proof.
  apply (@smoothed_targets_are_distributions
           (Tensor2 3 [[Fin 0; Fin 1; Fin 2]; [Fin 2; Fin 0; Fin 0]])
           (Arr1 [2; 0]%Z)).
  - repeat constructor.
  - simpl. lia.
  - reflexivity.
  - simpl. repeat constructor; lia.
Defined.

(** A gold label that names no class makes [calculate_loss] with smoothing
    raise where it scatters the one-hot rows: no loss is returned. *)
Lemma scatter_rows_out_of_range (n : nat) (rs : list (list tval))
  (index : list Z) (v : tval) :
  Exists (out_of_range n) index ->
  scatter_rows n rs index v = inl RuntimeError.
Proof.
  intros Hex. revert rs.
  induction index as [| g index IH]; intros rs; [inversion Hex |].
  destruct rs as [| r rs]; cbn [scatter_rows]; [reflexivity |].
  destruct ((0 <=? g)%Z && (g <? Z.of_nat n)%Z)%bool eqn:E;
    [| reflexivity].
  apply andb_prop in E as [E1 E2].
  apply Z.leb_le in E1. apply Z.ltb_lt in E2.
  inversion Hex as [? ? Hbad | ? ? Hrest]; subst.
  - exfalso. apply Hbad. lia.
  - now rewrite IH.
Qed.

(** X3. A gold label outside [0, classes) makes the smoothed loss, the one the
    training and validation loops use, raise at the scatter of line 47:
    nothing is returned. *)
Theorem calculate_loss_rejects_unknown_class (pred : tensor2)
  (gold : ndarray) :
  Exists (out_of_range (size1 pred)) (view_flat gold) ->
  calculate_loss pred gold true = inl RuntimeError.
Proof.
  intros Hex. unfold calculate_loss, scatter1, zeros_like.
  cbn [rows size1]. now rewrite scatter_rows_out_of_range.
Qed.

(** A label 3 where the logits have three classes. *)
Lemma calculate_loss_rejects_unknown_class_witness :
  calculate_loss (Tensor2 3 [[Fin 0; Fin 1; Fin 2]; [Fin 2; Fin 0; Fin 0]])
                 (Arr1 [2; 3]%Z) true = inl RuntimeError.
Proof.
  apply (@calculate_loss_rejects_unknown_class
           (Tensor2 3 [[Fin 0; Fin 1; Fin 2]; [Fin 2; Fin 0; Fin 0]])
           (Arr1 [2; 3]%Z)).
  apply Exists_cons_tl, Exists_cons_hd. unfold out_of_range. simpl. lia.
Defined.

(** * Files follow the saves of the trace *)

Section Tracked.
Context {C : Collab}.

Lemma apply_saves_app (e1 e2 : list event)
  (files : list (string * StateDict)) :
  apply_saves (e1 ++ e2) files = apply_saves e2 (apply_saves e1 files).
Proof.
  revert files. induction e1 as [| ev e1 IH]; intros files; [reflexivity |].
  destruct ev; cbn; apply IH.
Qed.

Lemma apply_saves_none (evs : list event)
  (files : list (string * StateDict)) :
  Forall (fun ev => is_any_save ev = false) evs ->
  apply_saves evs files = files.
Proof.
  induction 1 as [| ev evs Hev _ IH]; [reflexivity |].
  destruct ev; cbn in *; try discriminate; exact IH.
Qed.

Variable Q : event -> Prop.

Lemma tracked_ret {A : Type} (a : A) (post : A -> Prop) :
  post a -> tracked Q (ret a) post.
Proof.
  intros Ha w. exists []. cbn. rewrite app_nil_r. auto.
Qed.

Lemma tracked_emit (ev : event) :
  Q ev -> is_any_save ev = false -> tracked Q (emit ev) (fun _ => True).
Proof.
  intros Hev Hs w. exists [ev]. cbn. repeat split; auto.
  now destruct ev.
Qed.

Lemma tracked_torch_save (s : slot) (path : string) (sd : StateDict) :
  Q (EvSave s path sd) -> tracked Q (torch_save s path sd) (fun _ => True).
Proof. intros Hev w. exists [EvSave s path sd]. cbn. auto. Qed.

Lemma tracked_torch_load (path : string) :
  tracked Q (torch_load path) (fun _ => True).
Proof.
  intros w. exists []. unfold torch_load.
  destruct (lookup path (fs w)); cbn; rewrite app_nil_r; auto.
Qed.

Lemma tracked_iterate (ld : DataLoader) :
  tracked Q (iterate ld) (fun _ => True).
Proof. intros w. exists []. cbn. rewrite app_nil_r. auto. Qed.

Lemma tracked_bind {A B : Type} (m : M A) (k : A -> M B)
  (post1 : A -> Prop) (post2 : B -> Prop) :
  tracked Q m post1 ->
  (forall a, post1 a -> tracked Q (k a) post2) ->
  tracked Q (bind m k) post2.
Proof.
  intros Hm Hk w. destruct (Hm w) as (evs1 & E1 & Q1 & F1 & P1).
  unfold bind. destruct (m w) as [[e | a] w1]; cbn in *.
  - exists evs1. auto.
  - destruct (Hk a P1 w1) as (evs2 & E2 & Q2 & F2 & P2).
    exists (evs1 ++ evs2). rewrite E2, E1, app_assoc, F2, F1, apply_saves_app.
    repeat split; auto. now apply Forall_app.
Qed.

Lemma tracked_lift {A B : Type} (r : result A) (k : A -> M B)
  (post : B -> Prop) :
  (forall a, r = inr a -> tracked Q (k a) post) ->
  tracked Q (bind (lift r) k) post.
Proof.
  intros Hk. apply tracked_bind with (post1 := fun a => r = inr a);
    [| exact Hk].
  intros w. exists []. cbn. rewrite app_nil_r. repeat split; auto.
  now destruct r.
Qed.

Lemma tracked_then {B : Type} (ev : event) (k : unit -> M B)
  (post : B -> Prop) :
  Q ev -> is_any_save ev = false ->
  tracked Q (k tt) post -> tracked Q (bind (emit ev) k) post.
Proof.
  intros Hev Hs Hk. apply tracked_bind with (post1 := fun _ => True).
  - now apply tracked_emit.
  - intros [] _. exact Hk.
Qed.

Section Training.
Hypothesis Qlog : forall a, Q (EvLog (MsgModel a)).
Hypothesis Qprint : forall m, Q (EvPrint m).
Hypothesis Qforward : Q (EvForward true).
Hypothesis Qstep : forall r, Q (EvOptStep r).

Lemma tracked_train_loop (dry : bool) (batches : list (list sample))
  (l : Learner) (a : Accum) :
  tracked Q (train_loop dry batches l a) (fun _ => True).
Proof.
  revert l a. induction batches as [| b rest IH]; intros l a;
    cbn [train_loop].
  - now apply tracked_ret.
  - apply tracked_then; [apply Qforward | reflexivity |].
    apply tracked_lift. intros loss _.
    apply tracked_then; [apply Qstep | reflexivity |].
    destruct (optim_step _ _ _ _ _). destruct dry.
    + now apply tracked_ret.
    + apply IH.
Qed.

Lemma tracked_train_batch (args : Params) (ld : DataLoader) (l : Learner) :
  tracked Q (train_batch args ld l) (fun _ => True).
Proof.
  unfold train_batch.
  apply tracked_bind with (post1 := fun _ => True);
    [apply tracked_iterate |]. intros batches _.
  apply tracked_bind with (post1 := fun _ => True);
    [apply tracked_train_loop |]. intros la _.
  apply tracked_lift. intros r _. now apply tracked_ret.
Qed.

Lemma tracked_setup (args : Params) :
  tracked Q (setup args) (fun _ => True).
Proof.
  unfold setup. apply tracked_lift; intros tl _.
  apply tracked_lift; intros vl _.
  apply tracked_then; [apply Qlog | reflexivity |].
  apply tracked_then; [apply Qprint | reflexivity |].
  apply tracked_bind with (post1 := fun _ => True).
  - destruct (String.eqb (optimizer args) "SGD");
      (apply tracked_then;
       [apply Qprint | reflexivity | now apply tracked_ret]).
  - intros o _. apply tracked_bind with (post1 := fun _ => True).
    + destruct (negb (String.eqb (last_checkpoint args) "")).
      * eapply tracked_bind; [apply tracked_torch_load |].
        intros sd _. now apply tracked_ret.
      * now apply tracked_ret.
    + intros m _. now apply tracked_ret.
Qed.

End Training.
End Tracked.

(** * The evaluator trains nothing and writes nothing *)

Section EvaluatorOnly.
Context {C : Collab}.

Lemma tracked_test_loop (state : option string)
  (batches : list (list sample)) (m : Model) (t p : list ndarray) :
  tracked (test_event state) (test_loop batches m t p) (fun _ => True).
Proof.
  revert t p. induction batches as [| b rest IH]; intros t p;
    cbn [test_loop].
  - now apply tracked_ret.
  - apply tracked_then; [exact I | reflexivity | apply IH].
Qed.

Lemma tracked_test (args : Params) (state : option string) :
  tracked (test_event state) (test args state) (fun _ => True).
Proof.
  unfold test. apply tracked_lift; intros tel _.
  apply tracked_bind with (post1 := fun _ => True).
  - destruct state; apply tracked_torch_load.
  - intros sd _.
    apply tracked_bind with (post1 := fun _ => True);
      [apply tracked_iterate |]. intros batches _.
    apply tracked_bind with (post1 := fun _ => True);
      [apply tracked_test_loop |]. intros tp _.
    do 4 (apply tracked_lift; intros ? _).
    apply tracked_bind with (post1 := fun _ => True).
    + destruct state.
      * now apply tracked_ret.
      * apply tracked_emit; reflexivity.
    + intros [] _. now apply tracked_ret.
Qed.

Lemma test_events_facts (state : option string) (evs : list event) :
  Forall (test_event state) evs ->
  Forall (fun ev => is_any_save ev = false) evs
  /\ count is_train_forward evs = 0%nat
  /\ count is_any_save evs = 0%nat
  /\ step_rates evs = []
  /\ (state <> None -> Forall (fun ev => ev = EvForward false) evs).
Proof.
  unfold count. induction 1 as [| ev evs Hev _ (I1 & I2 & I3 & I4 & I5)].
  - repeat split; auto.
  - destruct ev as [[] | | [] | | | | |]; cbn in *; try contradiction.
    + repeat split; auto. intros Hs. contradiction.
    + repeat split; auto.
Qed.

(** X4. Whatever its arguments and whatever happens to it, a call of [test]
    runs no training step and saves no state: the files of saved states
    are afterwards what they were, the trace gains forward passes in
    evaluation mode and at most the summary line, and no summary line when
    a state was passed. *)
Theorem test_only_evaluates (args : Params) (state : option string)
  (w : World) :
  exists evs,
    trace (snd (test args state w)) = trace w ++ evs
    /\ fs (snd (test args state w)) = fs w
    /\ Forall (test_event state) evs
    /\ count is_train_forward evs = 0%nat
    /\ count is_any_save evs = 0%nat
    /\ step_rates evs = []
    /\ (state <> None -> Forall (fun ev => ev = EvForward false) evs).
Proof.
  destruct (tracked_test args state w) as (evs & E & HQ & F & _).
  destruct (test_events_facts HQ) as (H1 & H2 & H3 & H4 & H5).
  exists evs. rewrite F, (apply_saves_none _ H1). repeat split; auto.
Qed.

End EvaluatorOnly.

(** * A dry run and the files *)

Section DryFiles.
Context {C : Collab}.

Lemma dry_event_not_save (evs : list event) :
  Forall dry_event evs -> Forall (fun ev => is_any_save ev = false) evs.
Proof.
  apply Forall_impl. intros ev. destruct ev; cbn; auto. contradiction.
Qed.

Lemma tracked_train_dry (args : Params) :
  dry_ryn args = true ->
  tracked dry_event (train args) (fun _ => True).
Proof.
  intros Hdry. unfold train.
  apply tracked_bind with (post1 := fun _ => True).
  - apply tracked_setup; intros; exact I.
  - intros [[tl vl] l] _.
    apply tracked_bind with (post1 := fun lb => snd lb = BestState0).
    + destruct (epochs args) as [| n]; cbn [seq epoch_loop].
      * now apply tracked_ret.
      * rewrite Hdry.
        apply tracked_bind with (post1 := fun _ => True).
        -- apply tracked_train_batch; intros; exact I.
        -- intros lt _. now apply tracked_ret.
    + intros lb Hb. apply tracked_emit; [exact Hb | reflexivity].
Qed.

Lemma mkDataLoader_inr (ds : list sample) (bs : nat) (sh dl : bool)
  (ld : DataLoader) :
  mkDataLoader ds bs sh dl = inr ld ->
  (0 < bs)%nat
  /\ ld = {| ld_dataset := ds; ld_batch_size := bs;
             ld_shuffle := sh; ld_drop_last := dl |}
  /\ (sh = true -> ds <> []).
Proof.
  unfold mkDataLoader.
  destruct (sh && (length ds =? 0)%nat)%bool eqn:Ee; [discriminate |].
  destruct (Nat.eqb_spec bs 0) as [E | E]; [discriminate |].
  intros H. injection H as <-. split; [lia |]. split; [reflexivity |].
  intros -> ->. discriminate.
Qed.

Lemma train_returns_sizes (args : Params) (w : World) :
  returns (fst (train args w)) ->
  (0 < batch_size args)%nat /\ (0 < test_batch_size args)%nat.
Proof.
  intros Hret. apply returns_inr in Hret as ([] & w' & H).
  unfold train in H. inv_bind H. unfold setup in H0. inv_bind H0.
  apply lift_inr in H1 as (E1 & _). apply lift_inr in H2 as (E2 & _).
  apply mkDataLoader_inr in E1 as (B1 & _).
  apply mkDataLoader_inr in E2 as (B2 & _). auto.
Qed.

(** X5. A dry run of [train] saves no state, whatever happens to it: the
    files of saved states are as they were.  So when the script trains and
    then tests (lines 211-212) in a dry run, [test] reads the best slot as
    it was before [train]; with [train] returning, a test partition that
    is not empty (its loader is built first, line 172) and no best slot on
    file, the script raises [FileNotFoundError]. *)
Theorem dry_run_writes_no_file (args : Params) (w : World) :
  dry_ryn args = true ->
  fs (snd (train args w)) = fs w
  /\ (returns (fst (train args w)) ->
      dataset args TestPart <> [] ->
      lookup best_model_path (fs w) = None ->
      fst (main args w) = inl FileNotFoundError).
Proof.
  intros Hdry.
  destruct (tracked_train_dry args Hdry w) as (evs & E & HQ & F & _).
  rewrite (apply_saves_none _ (dry_event_not_save HQ)) in F.
  split; [exact F |].
  intros Hret Hte Hnone.
  destruct (train_returns_sizes _ _ Hret) as [_ Htbs].
  apply returns_inr in Hret as ([] & w' & H). rewrite H in F. cbn [snd] in F.
  unfold main. erewrite bind_of_inr by exact H.
  unfold test, test_loader. unfold dataset in Hte.
  rewrite mkDataLoader_ok by assumption.
  erewrite bind_of_inr by reflexivity.
  unfold bind, torch_load. rewrite F, Hnone. reflexivity.
Qed.

End DryFiles.

(** A dry run of the toy configuration from a world without files:
    [train] returns, no file appears, and the script stops in [test]. *)
Lemma dry_run_writes_no_file_witness :
  fs (snd (@train Toy.collab
             (Toy.params "DGCNN" 1 2 2 true [1; 2; 3] [1; 2] [4; 5])%nat
             World0))
  = fs (@World0 Toy.collab)
  /\ fst (@main Toy.collab
            (Toy.params "DGCNN" 1 2 2 true [1; 2; 3] [1; 2] [4; 5])%nat
            World0)
     = inl FileNotFoundError.
Proof.
  split.
  - apply (@dry_run_writes_no_file Toy.collab
             (Toy.params "DGCNN" 1 2 2 true [1; 2; 3] [1; 2] [4; 5])%nat
             World0).
    reflexivity.
  - apply (@dry_run_writes_no_file Toy.collab
             (Toy.params "DGCNN" 1 2 2 true [1; 2; 3] [1; 2] [4; 5])%nat
             World0).
    + reflexivity.
    + vm_compute. exact I.
    + discriminate.
    + reflexivity.
Defined.

(** * Runs that stop before the first batch *)

Section EarlyFailures.
Context {C : Collab}.

Lemma batch_sampler_short {A : Type} (bs : nat) (l cur : list A) :
  (length cur + length l < bs)%nat ->
  batch_sampler bs true cur l = [].
Proof.
  revert cur. induction l as [| x l IH]; intros cur Hlen.
  - destruct cur; reflexivity.
  - cbn [batch_sampler]. cbn [length] in Hlen.
    destruct (Nat.eqb_spec (length (x :: cur)) bs) as [E | E].
    + cbn [length] in E. lia.
    + apply IH. cbn [length]. lia.
Qed.

Lemma shuffle_length (k : nat) (l : list sample) :
  length (shuffle k l) = length l.
Proof. apply Permutation_length, shuffle_perm. Qed.

Lemma train_batch_no_batch (args : Params) (tl : DataLoader) (l : Learner)
  (w : World) :
  loader_batches tl (draws w) = [] ->
  train_batch args tl l w
  = (inl ValueError,
     {| fs := fs w; trace := trace w; draws := S (draws w) |}).
Proof.
  intros E. unfold train_batch, bind, iterate. rewrite E. reflexivity.
Qed.

Lemma setup_event_not_save (evs : list event) :
  Forall setup_event evs -> Forall (fun ev => is_any_save ev = false) evs.
Proof.
  apply Forall_impl. intros ev. destruct ev; cbn; auto; contradiction.
Qed.

Lemma tracked_setup_events (args : Params) :
  tracked setup_event (setup args) (fun _ => True).
Proof.
  unfold setup. apply tracked_lift; intros tl _.
  apply tracked_lift; intros vl _.
  apply tracked_then; [exact I | reflexivity |].
  apply tracked_then; [exact I | reflexivity |].
  apply tracked_bind with (post1 := fun _ => True).
  - destruct (String.eqb (optimizer args) "SGD");
      (apply tracked_then;
       [exact I | reflexivity | now apply tracked_ret]).
  - intros o _. apply tracked_bind with (post1 := fun _ => True).
    + destruct (negb (String.eqb (last_checkpoint args) "")).
      * eapply tracked_bind; [apply tracked_torch_load |].
        intros sd _. now apply tracked_ret.
      * now apply tracked_ret.
    + intros m _. now apply tracked_ret.
Qed.

Lemma setup_empty_partition (args : Params) (w : World) :
  dataset args TrainPart = [] \/ dataset args ValidationPart = [] ->
  setup args w = (inl ValueError, w).
Proof.
  unfold dataset, setup, train_loader, validation_loader, mkDataLoader.
  intros [E | E]; rewrite E; cbn [length Nat.eqb andb]; [reflexivity |].
  unfold bind, lift.
  destruct (length (dataset_loader args TrainPart (num_points args)
                                   (random_state args)) =? 0)%nat;
    cbn [andb]; [reflexivity |].
  destruct (batch_size args =? 0)%nat; reflexivity.
Qed.

Lemma train_empty_partition (args : Params) (w : World) :
  dataset args TrainPart = [] \/ dataset args ValidationPart = [] ->
  train args w = (inl ValueError, w).
Proof.
  intros H. unfold train. apply bind_of_inl.
  now apply setup_empty_partition.
Qed.

(** X6. The training loader drops its last, partial batch.  So when the
    training partition has fewer samples than [batch_size], the first
    pass of [train] sees no batch and [np.concatenate] (line 117) raises
    [ValueError]: the run stops there, having saved no state and put
    nothing on the trace but the lines of the set-up.  (With a partition
    that has no sample at all the loader's constructor raises the
    [ValueError] already.) *)
Theorem train_needs_a_full_batch (args : Params) (w : World) :
  (0 < batch_size args)%nat ->
  (0 < test_batch_size args)%nat ->
  (last_checkpoint args = ""%string
   \/ exists sd, lookup (last_checkpoint args) (fs w) = Some sd) ->
  (1 <= epochs args)%nat ->
  (length (dataset args TrainPart) < batch_size args)%nat ->
  fst (train args w) = inl ValueError
  /\ fs (snd (train args w)) = fs w
  /\ exists evs,
       trace (snd (train args w)) = trace w ++ evs
       /\ Forall setup_event evs.
Proof.
  intros Hbs Htbs Hck Hep Hsmall.
  destruct (dataset args TrainPart) as [| x tr] eqn:Etr.
  { rewrite train_empty_partition by (now left). cbn [fst snd].
    repeat split. exists []. now rewrite app_nil_r. }
  destruct (dataset args ValidationPart) as [| y va] eqn:Eva.
  { rewrite train_empty_partition by (now right). cbn [fst snd].
    repeat split. exists []. now rewrite app_nil_r. }
  assert (Hok : setup_ok args w).
  { unfold setup_ok. rewrite Etr, Eva. repeat split; auto; discriminate. }
  destruct (setup_run Hok) as (tl & vl & l & w1 & sev & Htl & Hset & Hd & _).
  destruct (tracked_setup_events args w) as (evs & E & HQ & F & _).
  rewrite Hset in E, F. cbn [snd] in E, F.
  rewrite (apply_saves_none _ (setup_event_not_save HQ)) in F.
  assert (Hb : loader_batches tl (draws w1) = []).
  { unfold train_loader in Htl.
    apply mkDataLoader_inr in Htl as (_ & -> & _).
    unfold loader_batches. cbn.
    apply batch_sampler_short. cbn [length].
    rewrite shuffle_length. unfold dataset in Etr. rewrite Etr.
    exact Hsmall. }
  assert (Htr : train args w
                = (inl ValueError,
                   {| fs := fs w1; trace := trace w1;
                      draws := S (draws w1) |})).
  { unfold train. erewrite bind_of_inr by exact Hset.
    destruct (epochs args) as [| n]; [lia |]. cbn [seq epoch_loop].
    apply bind_of_inl, bind_of_inl. now apply train_batch_no_batch. }
  rewrite Htr. cbn [fst snd fs trace]. repeat split; auto.
  exists evs. auto.
Qed.

End EarlyFailures.

(** One training sample and batches of two. *)
Lemma train_needs_a_full_batch_witness :
  fst (@train Toy.collab
         (Toy.params "DGCNN" 1 2 2 false [1] [1; 2] [])%nat World0)
  = inl ValueError
  /\ fs (snd (@train Toy.collab
                (Toy.params "DGCNN" 1 2 2 false [1] [1; 2] [])%nat World0))
     = fs (@World0 Toy.collab)
  /\ exists evs,
       trace (snd (@train Toy.collab
                     (Toy.params "DGCNN" 1 2 2 false [1] [1; 2] [])%nat
                     World0))
       = trace (@World0 Toy.collab) ++ evs
       /\ Forall setup_event evs.
Proof.
  apply (@train_needs_a_full_batch Toy.collab
           (Toy.params "DGCNN" 1 2 2 false [1] [1; 2] [])%nat World0).
  - cbn. lia.
  - cbn. lia.
  - now left.
  - cbn. lia.
  - cbn. lia.
Defined.

(** * Resuming from a checkpoint *)

Section Resume.
Context {C : Collab}.



End Resume.


(** * A partition without a sample *)

Section EmptyPartition.
Context {C : Collab}.

Lemma test_empty_partition (args : Params) (state : option string)
  (w : World) :
  dataset args TestPart = [] ->
  test args state w = (inl ValueError, w).
Proof.
  unfold dataset, test, test_loader, mkDataLoader. intros E. rewrite E.
  reflexivity.
Qed.

(** X8. The loader of [test] shuffles, so its constructor (line 172)
    raises [ValueError] on a test partition without a sample: [test]
    stops there whether or not the weights are on file, with nothing
    loaded, run or logged.  A script whose training returned then fails
    in [test] with this error. *)
Theorem test_of_empty_partition_raises (args : Params)
  (state : option string) (w : World) :
  dataset args TestPart = [] ->
  test args state w = (inl ValueError, w)
  /\ (returns (fst (train args w)) ->
      fst (main args w) = inl ValueError).
Proof.
  intros E. split; [now apply test_empty_partition |].
  intros Hret. apply returns_inr in Hret as ([] & w1 & H).
  unfold main. erewrite bind_of_inr by exact H.
  now rewrite test_empty_partition.
Qed.

(** X9. Both loaders of [train] shuffle and both are built before
    anything else (lines 59-62).  So a training or a validation partition
    without a sample makes [train] raise [ValueError] at once: an empty
    validation partition stops the run before the first training batch,
    with nothing logged, and the script never reaches [test]. *)
Theorem train_of_empty_partition_raises (args : Params) (w : World) :
  dataset args TrainPart = [] \/ dataset args ValidationPart = [] ->
  train args w = (inl ValueError, w)
  /\ main args w = (inl ValueError, w).
Proof.
  intros H. pose proof (train_empty_partition args w H) as E.
  split; [exact E |]. unfold main. now apply bind_of_inl.
Qed.

End EmptyPartition.

(** The toy configuration without a test sample: one epoch is trained and
    the script then stops in [test]. *)
Lemma test_of_empty_partition_raises_witness :
  @test Toy.collab (Toy.params "DGCNN" 1 2 2 false [1; 1] [1; 2] [])%nat
        None Toy.world
  = (inl ValueError, Toy.world)
  /\ fst (@main Toy.collab
            (Toy.params "DGCNN" 1 2 2 false [1; 1] [1; 2] [])%nat
            Toy.world)
     = inl ValueError.
Proof.
  split.
  - apply (@test_of_empty_partition_raises Toy.collab
             (Toy.params "DGCNN" 1 2 2 false [1; 1] [1; 2] [])%nat None
             Toy.world).
    reflexivity.
  - apply (@test_of_empty_partition_raises Toy.collab
             (Toy.params "DGCNN" 1 2 2 false [1; 1] [1; 2] [])%nat None
             Toy.world).
    + reflexivity.
    + vm_compute. exact I.
Defined.

(** The toy configuration without a validation sample. *)
Lemma train_of_empty_partition_raises_witness :
  @train Toy.collab (Toy.params "DGCNN" 1 2 2 false [1; 1] [] [4; 5])%nat
         World0
  = (inl ValueError, World0)
  /\ @main Toy.collab (Toy.params "DGCNN" 1 2 2 false [1; 1] [] [4; 5])%nat
           World0
     = (inl ValueError, World0).
Proof.
  apply (@train_of_empty_partition_raises Toy.collab
           (Toy.params "DGCNN" 1 2 2 false [1; 1] [] [4; 5])%nat World0).
  right. reflexivity.
Defined.

(** * The best state over a whole run *)

Section BestRecord.
Context {C : Collab}.

Lemma csv_rows_app (e1 e2 : list event) :
  csv_rows (e1 ++ e2) = csv_rows e1 ++ csv_rows e2.
Proof.
  induction e1 as [| ev e1 IH]; [reflexivity |].
  destruct ev; cbn; rewrite IH; reflexivity.
Qed.

Lemma quiet_rows (evs : list event) :
  Forall quiet_event evs -> csv_rows evs = [].
Proof.
  induction 1 as [| ev evs Hev _ IH]; [reflexivity |].
  destruct ev; cbn in *; try contradiction; exact IH.
Qed.

Lemma quiet_keeps (args : Params) (evs : list event) :
  Forall quiet_event evs -> Forall (keeps_best_slot args) evs.
Proof.
  apply Forall_impl. intros ev. destruct ev; cbn; auto; contradiction.
Qed.

Lemma quiet_saves (evs : list event) (files : list (string * StateDict)) :
  Forall quiet_event evs -> apply_saves evs files = files.
Proof.
  intros H. apply apply_saves_none. revert H. apply Forall_impl.
  intros ev. destruct ev; cbn; auto; contradiction.
Qed.

Lemma quiet_validation (n : nat) :
  Forall quiet_event (EvValidation :: repeat (EvForward false) n).
Proof.
  constructor; [exact I |]. apply Forall_forall. intros ev Hin.
  apply repeat_spec in Hin. subst ev. exact I.
Qed.

Lemma setup_event_quiet (evs : list event) :
  Forall setup_event evs -> Forall quiet_event evs.
Proof.
  apply Forall_impl. intros ev. destruct ev; cbn; auto.
Qed.

Lemma tracked_train_batch_quiet (args : Params) (ld : DataLoader)
  (l : Learner) :
  tracked quiet_event (train_batch args ld l) (fun _ => True).
Proof. apply tracked_train_batch; intros; exact I. Qed.

(** One epoch's validation block, by whether it improves on [best]. *)
Lemma validate_record (args : Params) (vl : DataLoader) (epoch : nat)
  (m : Model) (tr : tval * list Z * list Z) (best best' : BestState)
  (w w' : World) :
  validate args vl epoch m tr best w = (inr best', w') ->
  exists V row tail,
    Forall quiet_event V
    /\ trace w'
       = trace w
         ++ V ++ EvCsv row
                 :: EvSave Latest (checkpoint_path args) (state_dict m)
                 :: tail
    /\ fs w'
       = apply_saves
           (V ++ EvCsv row
                 :: EvSave Latest (checkpoint_path args) (state_dict m)
                 :: tail) (fs w)
    /\ (((global_best_avg_acc best < row_val_avg_acc row)%Q
         /\ best' = best_of_row row
         /\ tail = [EvSave Best best_model_path (state_dict m)])
        \/ ((row_val_avg_acc row <= global_best_avg_acc best)%Q
            /\ best' = best /\ tail = [])).
Proof.
  intros H. apply validate_inr in H.
  destruct H as (val_loss & row & _ & R2 & R3 & R4 & T & B & F & _).
  exists (EvValidation
          :: repeat (EvForward false) (length (loader_batches vl (draws w)))),
    row,
    (if Qgtb (validation_avg_acc vl m (draws w)) (global_best_avg_acc best)
     then [EvSave Best best_model_path (state_dict m)] else []).
  split; [apply quiet_validation |]. split; [exact T |]. split.
  - rewrite apply_saves_app, (quiet_saves _ (quiet_validation _)).
    rewrite F. destruct (Qgtb _ _); reflexivity.
  - destruct (Qgtb (validation_avg_acc vl m (draws w))
                   (global_best_avg_acc best)) eqn:E.
    + left. apply Qgtb_lt in E. rewrite R4. split; [exact E |].
      split; [| reflexivity]. rewrite B. unfold best_of_row.
      rewrite R2, R3, R4. reflexivity.
    + right. rewrite R4. split; [| split; [exact B | reflexivity]].
      apply Qnot_lt_le. intros Hlt. apply Qgtb_lt in Hlt. congruence.
Qed.

Lemma epoch_loop_best_record (args : Params) (tl vl : DataLoader)
  (todo : list nat) (l : Learner) (best : BestState) (w w' : World)
  (lb : Learner * BestState) :
  dry_ryn args = false ->
  epoch_loop args tl vl todo l best w = (inr lb, w') ->
  exists evs,
    trace w' = trace w ++ evs
    /\ fs w' = apply_saves evs (fs w)
    /\ best_record args best evs (snd lb).
Proof.
  intros Hdry. revert l best w.
  induction todo as [| epoch todo IH]; intros l best w H;
    cbn [epoch_loop] in H.
  - apply ret_inr in H as (-> & ->). exists []. rewrite app_nil_r.
    split; [reflexivity |]. split; [reflexivity |]. left.
    repeat split; constructor.
  - inv_bind H. rewrite Hdry in H. inv_bind H.
    destruct (tracked_train_batch_quiet args tl l w)
      as (e1 & T1 & Q1 & F1 & _).
    rewrite H0 in T1, F1. cbn [snd] in T1, F1.
    rewrite (quiet_saves _ Q1) in F1.
    apply validate_record in H1
      as (V & row & tail & QV & T2 & F2 & Hcase).
    apply IH in H as (e3 & T3 & F3 & R3).
    set (sd := state_dict (net (fst a))) in *.
    exists (e1 ++ (V ++ EvCsv row
                      :: EvSave Latest (checkpoint_path args) sd :: tail)
               ++ e3).
    split; [rewrite T3, T2, T1; now rewrite <- !app_assoc |].
    split.
    { rewrite F3, F2, F1. rewrite !apply_saves_app.
      now rewrite (quiet_saves _ Q1). }
    destruct Hcase as [(Hlt & -> & ->) | (Hle & -> & ->)].
    + destruct R3 as [(-> & Rows & Keep)
                     | (pre & row' & sd' & post & -> & -> & Hlt' & Hpre
                        & Hpost & Keep)].
      * right. exists (e1 ++ V), row, sd, e3.
        split; [now rewrite <- !app_assoc |].
        split; [reflexivity |]. split; [exact Hlt |].
        split; [| split; [exact Rows | exact Keep]].
        rewrite csv_rows_app, (quiet_rows Q1), (quiet_rows QV).
        constructor.
      * right.
        exists (e1 ++ (V ++ [EvCsv row;
                             EvSave Latest (checkpoint_path args) sd;
                             EvSave Best best_model_path sd]) ++ pre),
          row', sd', post.
        split; [now rewrite <- !app_assoc |].
        split; [reflexivity |].
        split; [eapply Qlt_trans; [exact Hlt | exact Hlt'] |].
        split; [| split; [exact Hpost | exact Keep]].
        rewrite !csv_rows_app, (quiet_rows Q1), (quiet_rows QV).
        cbn. constructor; [exact Hlt' | exact Hpre].
    + destruct R3 as [(-> & Rows & Keep)
                     | (pre & row' & sd' & post & -> & -> & Hlt' & Hpre
                        & Hpost & Keep)].
      * left. split; [reflexivity |]. split.
        -- rewrite !csv_rows_app, (quiet_rows Q1), (quiet_rows QV).
           cbn. constructor; [exact Hle | exact Rows].
        -- apply Forall_app. split; [now apply quiet_keeps |].
           apply Forall_app. split; [| exact Keep].
           apply Forall_app. split; [now apply quiet_keeps |].
           repeat constructor.
      * right.
        exists (e1 ++ (V ++ [EvCsv row;
                             EvSave Latest (checkpoint_path args) sd])
                   ++ pre),
          row', sd', post.
        split; [now rewrite <- !app_assoc |].
        split; [reflexivity |]. split; [exact Hlt' |].
        split; [| split; [exact Hpost | exact Keep]].
        rewrite !csv_rows_app, (quiet_rows Q1), (quiet_rows QV).
        cbn. constructor; [| exact Hpre].
        eapply Qle_lt_trans; [exact Hle | exact Hlt'].
Qed.

Lemma train_best_record (args : Params) (w : World) :
  dry_ryn args = false ->
  returns (fst (train args w)) ->
  exists evs b,
    trace (snd (train args w)) = trace w ++ evs ++ [EvSummary b]
    /\ fs (snd (train args w)) = apply_saves evs (fs w)
    /\ best_record args BestState0 evs b.
Proof.
  intros Hdry Hret. apply returns_inr in Hret as ([] & w' & H).
  rewrite H. cbn [snd]. unfold train in H. inv_bind H.
  destruct a as [[tl vl] l]. inv_bind H.
  destruct (tracked_setup_events args w) as (e1 & T1 & Q1 & F1 & _).
  rewrite H0 in T1, F1. cbn [snd] in T1, F1.
  apply setup_event_quiet in Q1.
  rewrite (quiet_saves _ Q1) in F1.
  eapply epoch_loop_best_record in H1; [| exact Hdry].
  destruct H1 as (e2 & T2 & F2 & R2).
  apply emit_inr in H as (F3 & T3 & _).
  exists (e1 ++ e2), (snd a).
  split; [rewrite T3, T2, T1; now rewrite <- !app_assoc |].
  split.
  { rewrite F3, F2, F1, apply_saves_app. now rewrite (quiet_saves _ Q1). }
  destruct R2 as [(-> & Rows & Keep)
                 | (pre & row & sd & post & -> & -> & Hlt & Hpre & Hpost
                    & Keep)].
  - left. split; [reflexivity |]. split.
    + now rewrite csv_rows_app, (quiet_rows Q1).
    + apply Forall_app. split; [now apply quiet_keeps | exact Keep].
  - right. exists (e1 ++ pre), row, sd, post.
    split; [now rewrite <- app_assoc |]. split; [reflexivity |].
    split; [exact Hlt |]. split; [| split; assumption].
    now rewrite csv_rows_app, (quiet_rows Q1).
Qed.

End BestRecord.

Section BestOverRun.
Context {C : Collab}.

Lemma best_record_first_maximum (args : Params) (start b : BestState)
  (evs : list event) :
  best_record args start evs b -> first_maximum start (csv_rows evs) b.
Proof.
  intros [(-> & Rows & _)
         | (pre & row & sd & post & -> & -> & Hlt & Hpre & Hpost & _)].
  - left. auto.
  - right. exists (csv_rows pre), row, (csv_rows post).
    rewrite csv_rows_app. cbn. auto.
Qed.

Lemma keeps_best_slot_lookup (args : Params) (evs : list event)
  (files : list (string * StateDict)) :
  same_file (checkpoint_path args) best_model_path = false ->
  Forall (keeps_best_slot args) evs ->
  lookup best_model_path (apply_saves evs files)
  = lookup best_model_path files.
Proof.
  intros Hne H. revert files.
  induction H as [| ev evs Hev _ IH]; intros files; [reflexivity |].
  destruct ev as [| | | | | | s path sd |]; cbn [apply_saves]; try apply IH.
  destruct s; cbn in Hev; [| contradiction]. subst path.
  rewrite IH. cbn [lookup]. now rewrite Hne.
Qed.

(** X10. A run of [train] that is not a dry run and returns prints a summary
    that names the first epoch to reach the highest validation balanced
    accuracy of the run: its row of the report gives the three values, the
    rows before it are strictly below it and the rows after it are not
    above it.  When no epoch has a positive validation balanced accuracy
    the summary is the all-zero start. *)
Theorem summary_reports_first_maximum (args : Params) (w : World) :
  dry_ryn args = false ->
  returns (fst (train args w)) ->
  exists evs b,
    trace (snd (train args w)) = trace w ++ evs ++ [EvSummary b]
    /\ first_maximum BestState0 (csv_rows evs) b.
Proof.
  intros Hdry Hret.
  destruct (train_best_record args w Hdry Hret) as (evs & b & T & _ & R).
  exists evs, b. split; [exact T |].
  eapply best_record_first_maximum, R.
Qed.

(** X11. When the checkpoint path names another file than the best slot, a
    run of [train] that is not a dry run and returns leaves in the best
    slot the weights of the epoch its summary reports: the state saved
    with the row the summary is made of.  When no epoch improved on the
    all-zero start, the best slot is as it was before the run. *)
Theorem best_slot_holds_reported_epoch (args : Params) (w : World) :
  dry_ryn args = false ->
  same_file (checkpoint_path args) best_model_path = false ->
  returns (fst (train args w)) ->
  exists evs b,
    trace (snd (train args w)) = trace w ++ evs ++ [EvSummary b]
    /\ ((b = BestState0
         /\ lookup best_model_path (fs (snd (train args w)))
            = lookup best_model_path (fs w))
        \/ (exists pre row sd post,
              evs = pre ++ EvCsv row
                        :: EvSave Latest (checkpoint_path args) sd
                        :: EvSave Best best_model_path sd :: post
              /\ b = best_of_row row
              /\ lookup best_model_path (fs (snd (train args w)))
                 = Some sd)).
Proof.
  intros Hdry Hne Hret.
  destruct (train_best_record args w Hdry Hret) as (evs & b & T & F & R).
  exists evs, b. split; [exact T |]. rewrite F.
  destruct R as [(-> & _ & Keep)
                | (pre & row & sd & post & -> & -> & _ & _ & _ & Keep)].
  - left. split; [reflexivity |].
    exact (@keeps_best_slot_lookup args evs _ Hne Keep).
  - right. exists pre, row, sd, post. split; [reflexivity |].
    split; [reflexivity |].
    rewrite apply_saves_app. cbn [apply_saves].
    rewrite (@keeps_best_slot_lookup args post _ Hne Keep). cbn [lookup].
    now rewrite same_file_refl.
Qed.

End BestOverRun.

(** The three epochs of the toy run. *)
Lemma summary_reports_first_maximum_witness :
  exists evs b,
    trace (snd (@train Toy.collab ToyRun.args World0))
    = trace (@World0 Toy.collab) ++ evs ++ [EvSummary b]
    /\ first_maximum BestState0 (csv_rows evs) b.
Proof.
  apply (@summary_reports_first_maximum Toy.collab ToyRun.args World0).
  - reflexivity.
  - vm_compute. exact I.
Defined.

(** The three epochs of the toy run, whose checkpoint path names another
    file than the best slot. *)
Lemma best_slot_holds_reported_epoch_witness :
  exists evs b,
    trace (snd (@train Toy.collab ToyRun.args World0))
    = trace (@World0 Toy.collab) ++ evs ++ [EvSummary b]
    /\ ((b = BestState0
         /\ lookup best_model_path
                   (fs (snd (@train Toy.collab ToyRun.args World0)))
            = lookup best_model_path (fs (@World0 Toy.collab)))
        \/ (exists pre row sd post,
              evs = pre ++ EvCsv row
                        :: EvSave Latest (checkpoint_path ToyRun.args) sd
                        :: EvSave Best best_model_path sd :: post
              /\ b = best_of_row row
              /\ lookup best_model_path
                        (fs (snd (@train Toy.collab ToyRun.args World0)))
                 = Some sd)).
Proof.
  apply (@best_slot_holds_reported_epoch Toy.collab ToyRun.args World0).
  - reflexivity.
  - reflexivity.
  - vm_compute. exact I.
Defined.

(** * Runs that train nothing, and the script *)

Section NoImprovement.
Context {C : Collab}.


Lemma test_without_best_model (args : Params) (w : World) :
  lookup best_model_path (fs w) = None ->
  dataset args TestPart <> [] ->
  (0 < test_batch_size args)%nat ->
  fst (test args None w) = inl FileNotFoundError.
Proof.
  intros Hnone Hte Htbs. unfold test, test_loader. unfold dataset in Hte.
  rewrite mkDataLoader_ok by assumption.
  erewrite bind_of_inr by reflexivity.
  unfold bind, torch_load. rewrite Hnone. reflexivity.
Qed.

(** X13. The script trains and then tests the best slot (lines 211-212).
    When the run is not a dry run, [train] returns, no epoch of it reports
    a positive validation balanced accuracy, the checkpoint path names
    another file than the best slot and there was no best slot on file
    before, there is none after either: with a test partition that is not
    empty, [test] raises [FileNotFoundError]. *)
Theorem main_without_improvement_fails (args : Params) (w : World)
  (evs : list event) :
  dry_ryn args = false ->
  same_file (checkpoint_path args) best_model_path = false ->
  lookup best_model_path (fs w) = None ->
  dataset args TestPart <> [] ->
  returns (fst (train args w)) ->
  trace (snd (train args w)) = trace w ++ evs ->
  Forall (fun r => (row_val_avg_acc r <= 0)%Q) (csv_rows evs) ->
  fst (main args w) = inl FileNotFoundError.
Proof.
  intros Hdry Hne Hnone Hte Hret Htrace Hrows.
  destruct (train_returns_sizes _ _ Hret) as [_ Htbs].
  destruct (train_best_record args w Hdry Hret) as (evs0 & b & T & F & R).
  rewrite T in Htrace. apply app_inv_head in Htrace. subst evs.
  rewrite csv_rows_app in Hrows. apply Forall_app in Hrows as [Hrows _].
  apply returns_inr in Hret as ([] & w1 & H). rewrite H in F.
  cbn [snd] in F. unfold main. erewrite bind_of_inr by exact H.
  apply test_without_best_model; [| exact Hte | exact Htbs]. rewrite F.
  destruct R as [(_ & _ & Keep)
                | (pre & row & sd & post & -> & _ & Hlt & _)].
  - now rewrite (@keeps_best_slot_lookup _ args evs0 _ Hne Keep).
  - exfalso. rewrite csv_rows_app in Hrows.
    apply Forall_app in Hrows as [_ Hrows]. cbn in Hrows.
    apply Forall_inv in Hrows. cbn in Hlt.
    apply (Qlt_not_le _ _ Hlt Hrows).
Qed.

End NoImprovement.


(** One epoch of the toy configuration on validation clouds the toy
    network gets all wrong. *)
Lemma main_without_improvement_fails_witness :
  fst (@main Toy.collab
         (Toy.params "DGCNN" 1 2 2 false [1; 1] [7; 8] [4; 5])%nat World0)
  = inl FileNotFoundError.
Proof.
  apply (@main_without_improvement_fails Toy.collab
           (Toy.params "DGCNN" 1 2 2 false [1; 1] [7; 8] [4; 5])%nat World0
           (skipn 0 (trace (snd (@train Toy.collab
              (Toy.params "DGCNN" 1 2 2 false [1; 1] [7; 8] [4; 5])%nat
              World0))))).
  - reflexivity.
  - reflexivity.
  - reflexivity.
  - discriminate.
  - vm_compute. exact I.
  - reflexivity.
  - vm_compute. repeat constructor; discriminate.
Defined.

(** * The work of a run *)

Section Work.
Context {C : Collab}.

Lemma step_count_app (e1 e2 : list event) :
  length (step_rates (e1 ++ e2))
  = (length (step_rates e1) + length (step_rates e2))%nat.
Proof.
  induction e1 as [| ev e1 IH]; [reflexivity |].
  destruct ev; cbn; rewrite ?IH; reflexivity.
Qed.

Lemma quiet_setup_work (evs : list event) :
  Forall setup_event evs ->
  count is_train_forward evs = 0%nat /\ step_rates evs = [].
Proof.
  unfold count. induction 1 as [| ev evs Hev _ [I1 I2]]; [auto |].
  destruct ev as [[] | | | | | | |]; cbn in *; try contradiction; auto.
Qed.

Lemma train_steps_work (r : R) (batches : list (list sample)) :
  let evs := flat_map (fun _ => [EvForward true; EvOptStep r]) batches in
  count is_train_forward evs = length batches
  /\ length (step_rates evs) = length batches
  /\ csv_rows evs = [].
Proof.
  unfold count. induction batches as [| b rest (I1 & I2 & I3)]; cbn;
    [auto |]. cbn in I1, I2, I3. rewrite I1, I2, I3. auto.
Qed.

Lemma validation_work (n : nat) :
  let evs := EvValidation :: repeat (EvForward false) n in
  count is_train_forward evs = 0%nat
  /\ step_rates evs = []
  /\ csv_rows evs = [].
Proof.
  unfold count. cbn. induction n as [| n (I1 & I2 & I3)]; cbn; auto.
Qed.

Lemma drop_batches_count (ds : list sample) (bs k : nat) :
  (0 < bs)%nat ->
  length (loader_batches
            {| ld_dataset := ds; ld_batch_size := bs;
               ld_shuffle := true; ld_drop_last := true |} k)
  = (length ds / bs)%nat.
Proof.
  intros Hbs.
  assert (Ht := drop_batches_total ds k Hbs).
  assert (Hf : Forall (fun b : list sample => length b = bs)
                 (loader_batches
                    {| ld_dataset := ds; ld_batch_size := bs;
                       ld_shuffle := true; ld_drop_last := true |} k)).
  { unfold loader_batches. cbn. now apply batch_sampler_full. }
  rewrite (length_concat_full Hf) in Ht.
  apply Nat.mul_cancel_l in Ht; [exact Ht | lia].
Qed.

Lemma train_batch_trace (args : Params) (tl : DataLoader) (l : Learner)
  (w w' : World) (lr : Learner * (tval * list Z * list Z)) :
  dry_ryn args = false ->
  train_batch args tl l w = (inr lr, w') ->
  exists r,
    trace w'
    = trace w ++ flat_map (fun _ => [EvForward true; EvOptStep r])
                          (loader_batches tl (draws w)).
Proof.
  intros Hdry H. unfold train_batch in H. rewrite Hdry in H. inv_bind H.
  unfold iterate in H0. injection H0 as <- <-.
  destruct a0 as [l' a'].
  apply train_loop_inr in H1 as (_ & _ & _ & _ & _ & _ & _ & T).
  apply lift_inr in H2 as (_ & ->). apply ret_inr in H as (_ & ->).
  cbn [trace] in T. eexists. exact T.
Qed.

Lemma epoch_loop_work (args : Params) (ds : list sample) (bs : nat)
  (vl : DataLoader) (todo : list nat) (l : Learner) (best : BestState)
  (w w' : World) (lb : Learner * BestState) :
  dry_ryn args = false ->
  (0 < bs)%nat ->
  epoch_loop args
    {| ld_dataset := ds; ld_batch_size := bs;
       ld_shuffle := true; ld_drop_last := true |}
    vl todo l best w = (inr lb, w') ->
  exists evs,
    trace w' = trace w ++ evs
    /\ count is_train_forward evs = (length todo * (length ds / bs))%nat
    /\ length (step_rates evs) = (length todo * (length ds / bs))%nat
    /\ length (csv_rows evs) = length todo.
Proof.
  intros Hdry Hbs. revert l best w.
  induction todo as [| epoch todo IH]; intros l best w H;
    cbn [epoch_loop] in H.
  - apply ret_inr in H as (_ & ->). exists []. rewrite app_nil_r.
    repeat split.
  - inv_bind H. rewrite Hdry in H. inv_bind H.
    eapply train_batch_trace in H0; [| exact Hdry].
    destruct H0 as (r & T1).
    apply validate_inr in H1.
    destruct H1 as (val_loss & row & _ & _ & _ & _ & T2 & _).
    apply IH in H as (e3 & T3 & W1 & W2 & W3).
    destruct (train_steps_work r
                (loader_batches
                   {| ld_dataset := ds; ld_batch_size := bs;
                      ld_shuffle := true; ld_drop_last := true |}
                   (draws w))) as (A1 & A2 & A3).
    rewrite drop_batches_count in A1, A2 by exact Hbs.
    destruct (validation_work (length (loader_batches vl (draws w0))))
      as (B1 & B2 & B3).
    eexists. split.
    { rewrite T3, T2, T1. rewrite <- !app_assoc. reflexivity. }
    rewrite !count_app, !step_count_app, !csv_rows_app, !length_app.
    rewrite A1, A2, A3, B1, B2, B3, W1, W2, W3.
    destruct (Qgtb _ _); cbn; repeat split; lia.
Qed.

(** X14. A run of [train] that is not a dry run and returns has made, in each
    of its epochs, one forward pass in training mode and one optimizer
    step for each full batch of the training partition, and written one
    row of the report: [epochs * (N / batch_size)] passes and steps and
    [epochs] rows in all. *)
Theorem run_makes_one_step_per_full_batch (args : Params) (w : World) :
  dry_ryn args = false ->
  returns (fst (train args w)) ->
  exists evs,
    trace (snd (train args w)) = trace w ++ evs
    /\ count is_train_forward evs
       = (epochs args
          * (length (dataset args TrainPart) / batch_size args))%nat
    /\ length (step_rates evs)
       = (epochs args
          * (length (dataset args TrainPart) / batch_size args))%nat
    /\ length (csv_rows evs) = epochs args.
Proof.
  intros Hdry Hret.
  destruct (train_returns_sizes _ _ Hret) as [Hbs _].
  apply returns_inr in Hret as ([] & w' & H).
  rewrite H. cbn [snd]. unfold train in H. inv_bind H.
  destruct a as [[tl vl] l]. inv_bind H.
  destruct (tracked_setup_events args w) as (e1 & T1 & Q1 & _).
  rewrite H0 in T1. cbn [snd] in T1.
  destruct (quiet_setup_work Q1) as (S1 & S2).
  assert (S3 := quiet_rows (setup_event_quiet Q1)).
  unfold setup in H0. inv_bind H0.
  apply lift_inr in H2 as (Etl & _).
  apply mkDataLoader_inr in Etl as (_ & -> & _).
  apply ret_inr in H0 as (E0 & _). injection E0 as E0 _ _. subst tl.
  eapply epoch_loop_work in H1; [| exact Hdry | exact Hbs].
  destruct H1 as (e2 & T2 & W1 & W2 & W3).
  apply emit_inr in H as (_ & T3 & _).
  exists (e1 ++ e2 ++ [EvSummary (snd a)]). split.
  { rewrite T3, T2, T1. now rewrite <- !app_assoc. }
  rewrite !count_app, !step_count_app, !csv_rows_app, !length_app.
  rewrite S1, S2, S3, W1, W2, W3, length_seq. unfold dataset. cbn.
  repeat split; lia.
Qed.

End Work.

(** The three epochs of the toy run. *)
Lemma run_makes_one_step_per_full_batch_witness :
  exists evs,
    trace (snd (@train Toy.collab ToyRun.args World0))
    = trace (@World0 Toy.collab) ++ evs
    /\ count is_train_forward evs = 3%nat
    /\ length (step_rates evs) = 3%nat
    /\ length (csv_rows evs) = 3%nat.
Proof.
  apply (@run_makes_one_step_per_full_batch Toy.collab ToyRun.args World0).
  - reflexivity.
  - vm_compute. exact I.
Defined.

(** * The best state and the checkpoint over the epochs *)

Section EpochRecords.
Context {C : Collab}.

Lemma records_quiet_app (args : Params) (b b' : BestState)
  (e1 e2 : list event) :
  Forall quiet_event e1 ->
  epoch_records args b e2 b' ->
  epoch_records args b (e1 ++ e2) b'.
Proof.
  induction 1 as [| ev e1 Hev _ IH]; intros H; [exact H |].
  cbn [app]. apply records_quiet; auto.
Qed.

Lemma records_monotone (args : Params) (b b' : BestState)
  (evs : list event) :
  epoch_records args b evs b' ->
  (global_best_avg_acc b <= global_best_avg_acc b')%Q.
Proof.
  induction 1 as [b | b b' ev evs _ _ IH | b b' row sd evs Hlt _ IH
                 | b b' row sd evs _ _ IH].
  - apply Qle_refl.
  - exact IH.
  - apply Qlt_le_weak. eapply Qlt_le_trans; [exact Hlt | exact IH].
  - exact IH.
Qed.

Lemma Qgtb_false_le (a b : Q) : (a <= b)%Q -> Qgtb a b = false.
Proof.
  intros Hle. destruct (Qgtb a b) eqn:E; [| reflexivity].
  apply Qgtb_lt in E. exfalso. now apply (Qlt_not_le b a).
Qed.

Lemma records_replay (args : Params) (b b' : BestState)
  (evs : list event) :
  epoch_records args b evs b' ->
  b' = best_after b evs /\ saved_slots evs = expected_slots b evs.
Proof.
  induction 1 as [b | b b' ev evs Hq _ [IH1 IH2]
                 | b b' row sd evs Hlt _ [IH1 IH2]
                 | b b' row sd evs Hle _ [IH1 IH2]].
  - split; reflexivity.
  - destruct ev; cbn in Hq; try contradiction; cbn; auto.
  - apply Qgtb_lt in Hlt. cbn. rewrite Hlt. split; [exact IH1 |].
    now rewrite IH2.
  - apply Qgtb_false_le in Hle. cbn. rewrite Hle. split; [exact IH1 |].
    now rewrite IH2.
Qed.

Lemma epoch_loop_records (args : Params) (tl vl : DataLoader)
  (todo : list nat) (l : Learner) (best : BestState) (w w' : World)
  (lb : Learner * BestState) :
  dry_ryn args = false ->
  epoch_loop args tl vl todo l best w = (inr lb, w') ->
  exists evs,
    trace w' = trace w ++ evs
    /\ epoch_records args best evs (snd lb)
    /\ length (csv_rows evs) = length todo.
Proof.
  intros Hdry. revert l best w.
  induction todo as [| epoch todo IH]; intros l best w H;
    cbn [epoch_loop] in H.
  - apply ret_inr in H as (-> & ->). exists []. rewrite app_nil_r.
    split; [reflexivity |]. split; [constructor | reflexivity].
  - inv_bind H. rewrite Hdry in H. inv_bind H.
    destruct (tracked_train_batch_quiet args tl l w)
      as (e1 & T1 & Q1 & _).
    rewrite H0 in T1. cbn [snd] in T1.
    apply validate_record in H1
      as (V & row & tail & QV & T2 & _ & Hcase).
    apply IH in H as (e3 & T3 & R3 & N3).
    set (sd := state_dict (net (fst a))) in *.
    exists (e1 ++ V ++ (EvCsv row
                         :: EvSave Latest (checkpoint_path args) sd :: tail)
               ++ e3).
    split; [rewrite T3, T2, T1; now rewrite <- !app_assoc |].
    split.
    + apply records_quiet_app; [exact Q1 |].
      apply records_quiet_app; [exact QV |].
      destruct Hcase as [(Hlt & -> & ->) | (Hle & -> & ->)]; cbn [app].
      * now apply records_improve.
      * now apply records_keep.
    + rewrite !csv_rows_app, (quiet_rows Q1), (quiet_rows QV).
      destruct Hcase as [(_ & _ & ->) | (_ & _ & ->)]; cbn; now rewrite N3.
Qed.

Lemma train_records (args : Params) (w : World) :
  dry_ryn args = false ->
  returns (fst (train args w)) ->
  exists evs b,
    trace (snd (train args w)) = trace w ++ evs ++ [EvSummary b]
    /\ epoch_records args BestState0 evs b
    /\ length (csv_rows evs) = epochs args.
Proof.
  intros Hdry Hret. apply returns_inr in Hret as ([] & w' & H).
  rewrite H. cbn [snd]. unfold train in H. inv_bind H.
  destruct a as [[tl vl] l]. inv_bind H.
  destruct (tracked_setup_events args w) as (e1 & T1 & Q1 & _).
  rewrite H0 in T1. cbn [snd] in T1.
  apply setup_event_quiet in Q1.
  eapply epoch_loop_records in H1; [| exact Hdry].
  destruct H1 as (e2 & T2 & R2 & N2).
  apply emit_inr in H as (_ & T3 & _).
  exists (e1 ++ e2), (snd a).
  split; [rewrite T3, T2, T1; now rewrite <- !app_assoc |].
  split; [now apply records_quiet_app |].
  rewrite csv_rows_app, (quiet_rows Q1). cbn [app].
  now rewrite N2, length_seq.
Qed.

(** C1. In a run of [train] that is not a dry run and returns, and over
    any epochs of its loop: an epoch writes the best slot and replaces the
    best state by the triple of its row exactly when the validation
    balanced accuracy of the row is strictly above the best state the
    epoch before it left (the all-zero state for the first); on a tie or
    below, the best slot is not written and the next epoch meets the best
    state unchanged.  So the best balanced accuracy never decreases, and
    the summary is what the rows replay to. *)
Theorem best_state_strict_improvement (args : Params) (w : World) :
  dry_ryn args = false ->
  returns (fst (train args w)) ->
  best_state_policy args w.
Proof.
  intros Hdry Hret. split.
  - intros tl vl todo l best w0 lb w1 H.
    destruct (@epoch_loop_records args tl vl todo l best w0 w1 lb Hdry H)
      as (evs & T & R & N).
    destruct (records_replay R) as [B S].
    exists evs. repeat split; auto. now apply (records_monotone R).
  - destruct (train_records args w Hdry Hret) as (evs & b & T & R & N).
    destruct (records_replay R) as [B S].
    exists evs, b. repeat split; auto.
    apply (records_monotone R).
Qed.

Lemma epoch_loop_split (args : Params) (tl vl : DataLoader)
  (before : list nat) (epoch : nat) (after : list nat) (l : Learner)
  (best : BestState) (w w' : World) (lb : Learner * BestState) :
  dry_ryn args = false ->
  epoch_loop args tl vl (before ++ epoch :: after) l best w = (inr lb, w') ->
  exists la ba wa l1 b1 wb,
    epoch_loop args tl vl before l best w = (inr (la, ba), wa)
    /\ epoch_checkpoint args tl vl epoch la ba wa l1 b1 wb
    /\ epoch_loop args tl vl after l1 b1 wb = (inr lb, w').
Proof.
  intros Hdry. revert l best w.
  induction before as [| e before IH]; intros l best w H;
    cbn [app epoch_loop] in H.
  - inv_bind H. rewrite Hdry in H. inv_bind H.
    exists l, best, w, (fst a), a0, w1.
    split; [reflexivity |]. split; [| exact H].
    pose proof (validate_counts _ _ _ _ _ _ _ H1)
      as (evs & T & InL & SL & _).
    pose proof (validate_inr _ _ _ _ _ _ _ H1)
      as (_ & _ & _ & _ & _ & _ & _ & _ & F & _).
    exists a, w0, evs. repeat split; auto.
    rewrite F. apply lookup_saved.
  - inv_bind H. rewrite Hdry in H. inv_bind H.
    apply IH in H as (la & ba & wa & l1 & b1 & wb & E1 & E2 & E3).
    exists la, ba, wa, l1, b1, wb. split; [| split; assumption].
    cbn [epoch_loop]. erewrite bind_of_inr by exact H0. rewrite Hdry.
    erewrite bind_of_inr by exact H1. exact E1.
Qed.

(** C6. In a run of [train] that is not a dry run and returns, every epoch
    of the loop writes the state of the current model, the network its
    own training pass handed back, to the checkpoint path, once and
    whether or not the epoch improved on the best state; the epochs after
    it go on from that network.  The run writes the checkpoint once per
    epoch, and the checkpoint file holds at the end the state of the
    network the loop ended with. *)
Theorem checkpoint_every_epoch (args : Params) (w : World) :
  dry_ryn args = false ->
  returns (fst (train args w)) ->
  checkpoint_policy args w.
Proof.
  intros Hdry Hret. split; [| split].
  - intros tl vl before epoch after l best w0 lb w1.
    now apply epoch_loop_split.
  - now apply train_latest.
  - intros Hep. apply returns_inr in Hret as ([] & w' & H).
    rewrite H. cbn [snd]. unfold train in H. inv_bind H.
    destruct a as [[tl vl] l]. inv_bind H.
    exists tl, vl, l, w0, a, w1. split; [exact H0 |].
    split; [exact H1 |].
    apply emit_inr in H as (F3 & _). rewrite F3.
    destruct (epochs args) as [| n]; [lia |].
    rewrite seq_S in H1. cbn [Nat.add] in H1.
    apply epoch_loop_split in H1; [| exact Hdry].
    destruct H1 as (la & ba & wa & l1 & b1 & wb & _ & E2 & E3).
    cbn [epoch_loop] in E3. apply ret_inr in E3 as (-> & ->).
    destruct E2 as (lt & wc & evs & _ & _ & _ & _ & _ & _ & L).
    exact L.
Qed.

End EpochRecords.

(** C1 on the toy run of three epochs. *)
Lemma best_state_strict_improvement_witness :
  @best_state_policy Toy.collab ToyRun.args World0.
Proof.
  apply (@best_state_strict_improvement Toy.collab ToyRun.args World0).
  - reflexivity.
  - vm_compute. exact I.
Defined.

(** C6 on the toy run of three epochs. *)
Lemma checkpoint_every_epoch_witness :
  @checkpoint_policy Toy.collab ToyRun.args World0.
Proof.
  apply (@checkpoint_every_epoch Toy.collab ToyRun.args World0).
  - reflexivity.
  - vm_compute. exact I.
Defined.
